(** * q2-alignment: masking, position filtering and sequence filtering

    A shallow embedding of [q2_alignment/_filter.py] and of the parts of
    scikit-bio, numpy and pandas that the module calls.

    Conventions of the embedding.
    - Python [int] is [Z].
    - A binary64 value is an exact rational, or one of the IEEE special
      values that numpy's true division produces on a zero divisor
      ([inf], [-inf], [nan]).  Rounding of quotients is not modelled; the
      order on the special values is the IEEE one (every comparison with
      [nan] is false).  Where the digits of a float are printed, in the
      message of [mask], the value is rounded to binary64 first.
    - A Python [dict] is an association list in insertion order.
    - A mutable object handed to a function is the state of a small
      state-and-exception monad, so that what the function does to the
      object of its caller is part of its meaning.
*)

From Stdlib Require Import List String Ascii ZArith QArith Qminmax Qround.
From Stdlib Require Import Qabs Lia Lqa Bool DecimalString PeanoNat.
From Stdlib Require Import Floats.SpecFloat.
Import ListNotations.

Local Open Scope string_scope.
Local Open Scope Z_scope.

(** ** Exceptions and the state-and-exception monad *)

Inductive exn : Type :=
| ValueError (msg : string)
| KeyError (msg : string)
| IndexError
| AttributeError.

Inductive result (A : Type) : Type :=
| Ok (a : A)
| Raise (e : exn).

Arguments Ok {A} a.
Arguments Raise {A} e.

(** [Py S A]: a computation over a mutable object of type [S] owned by the
    caller.  An exception leaves the mutations done so far in place. *)
Definition Py (S A : Type) : Type := S -> S * result A.

Definition ret {S A} (a : A) : Py S A := fun s => (s, Ok a).

Definition raise {S A} (e : exn) : Py S A := fun s => (s, Raise e).

Definition bind {S A B} (m : Py S A) (k : A -> Py S B) : Py S B :=
  fun s =>
    match m s with
    | (s', Ok a) => k a s'
    | (s', Raise e) => (s', Raise e)
    end.

Definition get {S} : Py S S := fun s => (s, Ok s).

Definition modify {S} (f : S -> S) : Py S unit := fun s => (f s, Ok tt).

Definition lift {S A} (r : result A) : Py S A := fun s => (s, r).

(** [try: m  except KeyError: raise e]. *)
Definition except_KeyError {S A} (m : Py S A) (e : exn) : Py S A :=
  fun s =>
    match m s with
    | (s', Raise (KeyError _)) => (s', Raise e)
    | r => r
    end.

Declare Scope py_scope.
Delimit Scope py_scope with py.
Notation "x <- m ;; k" := (bind m (fun x => k))
  (at level 61, m at next level, right associativity) : py_scope.
Notation "m ;; k" := (bind m (fun _ => k))
  (at level 61, right associativity) : py_scope.

(** ** Numbers *)

Module Np.

(** A binary64 value: finite, or an IEEE special value. *)
Inductive float : Type :=
| Fin (q : Q)
| PInf
| NInf
| NaN.

(** numpy's [/] on scalars and arrays never raises: on a zero divisor it
    warns and yields [nan] (0/0) or a signed infinity. *)
Definition true_divide (x y : Q) : float :=
  if Qeq_bool y 0 then
    match (x ?= 0)%Q with
    | Eq => NaN
    | Gt => PInf
    | Lt => NInf
    end
  else Fin (x / y).

Definition Qlt_bool (x y : Q) : bool := negb (Qle_bool y x).

(** [x >= t], [x <= t], [x > t] for a finite threshold [t]. *)
Definition ge (x : float) (t : Q) : bool :=
  match x with
  | Fin q => Qle_bool t q
  | PInf => true
  | NInf | NaN => false
  end.

Definition le (x : float) (t : Q) : bool :=
  match x with
  | Fin q => Qle_bool q t
  | NInf => true
  | PInf | NaN => false
  end.

Definition gt (x : float) (t : Q) : bool :=
  match x with
  | Fin q => Qlt_bool t q
  | PInf => true
  | NInf | NaN => false
  end.

(** [np.sum] of a list. *)
Definition sum (l : list Q) : Q := fold_left Qplus l 0%Q.

(** [np.max] of the non-empty list [x :: l]. *)
Definition max (x : Q) (l : list Q) : Q := fold_left Qmax l x.

(** [mask.sum()] of a boolean array. *)
Definition count_true (m : list bool) : Z :=
  Z.of_nat (List.length (filter (fun b => b) m)).

End Np.

(** ** String formatting *)

Module Fmt.

(** ['%d' % z]. *)
Definition int (z : Z) : string := NilZero.string_of_int (Z.to_int z).

Fixpoint zeros (n : nat) : string :=
  match n with
  | O => EmptyString
  | S n' => String "0" (zeros n')
  end.

(** Rounding to the nearest integer, ties to even. *)
Definition round_half_even (q : Q) : Z :=
  let f := Qfloor q in
  match (q - inject_Z f ?= 1 # 2)%Q with
  | Lt => f
  | Gt => f + 1
  | Eq => if Z.even f then f else f + 1
  end.

(** Fixed-point notation with [digits] >= 1 decimals, as ['%.<digits>f']. *)
Definition fixed (digits : nat) (q : Q) : string :=
  let scale := 10 ^ Z.of_nat digits in
  let scaled := round_half_even (Qabs q * inject_Z scale) in
  let frac := int (scaled mod scale) in
  (if Np.Qlt_bool q 0 then "-" else EmptyString)
    ++ int (scaled / scale) ++ "."
    ++ zeros (digits - String.length frac) ++ frac.

(** ['%f' % x]. *)
Definition f (x : Q) : string := fixed 6 x.

(** Binary64 arithmetic, for the one place where the digits of a float
    are printed: the IEEE operations of the standard library's
    [SpecFloat] at precision 53 and maximal exponent 1024. *)
Definition binary64_of_Z (z : Z) : spec_float :=
  binary_normalize 53 1024 z 0 false.

(** The binary64 value nearest to a rational: the correctly rounded
    quotient of its numerator by its denominator (both below 2^53 in
    every use, so that their conversion is exact). *)
Definition binary64_of_Q (q : Q) : spec_float :=
  SFdiv 53 1024 (binary64_of_Z (Qnum q)) (binary64_of_Z (Zpos (Qden q))).

(** The rational a finite binary64 value stands for. *)
Definition exact_value (sign : bool) (mantissa : positive) (exponent : Z) : Q :=
  (if sign then -1 else 1) * inject_Z (Zpos mantissa) * Qpower 2 exponent.

(** ['{percent:.2%}'.format(percent=x)]: the binary64 value of [x] is
    multiplied by 100 in binary64, and the product is printed with two
    decimals, correctly rounded. *)
Definition percent (x : Np.float) : string :=
  match x with
  | Np.Fin q =>
      match SFmul 53 1024 (binary64_of_Q q) (binary64_of_Z 100) with
      | S754_zero sign => (if sign then "-" else EmptyString) ++ "0.00%"
      | S754_finite sign mantissa exponent =>
          fixed 2 (exact_value sign mantissa exponent) ++ "%"
      | S754_infinity sign => (if sign then "-" else EmptyString) ++ "inf%"
      | S754_nan => "nan%"
      end
  | Np.PInf => "inf%"
  | Np.NInf => "-inf%"
  | Np.NaN => "nan%"
  end.


End Fmt.

(** ** Frequency vectors: [dict] from character to frequency *)

Definition dict : Type := list (ascii * Q).

Fixpoint dict_contains (k : ascii) (d : dict) : bool :=
  match d with
  | [] => false
  | (k', _) :: d' => Ascii.eqb k k' || dict_contains k d'
  end.

(** [del d[k]], for a key that is present. *)
Fixpoint dict_del (k : ascii) (d : dict) : dict :=
  match d with
  | [] => []
  | (k', v) :: d' => if Ascii.eqb k k' then d' else (k', v) :: dict_del k d'
  end.

(** [d.get(k, default)]. *)
Fixpoint dict_get (k : ascii) (d : dict) (default : Q) : Q :=
  match d with
  | [] => default
  | (k', v) :: d' => if Ascii.eqb k k' then v else dict_get k d' default
  end.

Definition dict_values (d : dict) : list Q := map snd d.

Definition dict_keys (d : dict) : list ascii := map fst d.

(** ** Sequence types *)

(** The part of a scikit-bio grammared sequence class the module reads. *)
Record sequence_dtype : Type := { gap_chars : list ascii }.

(** [skbio.DNA]: gap characters ['-'] and ['.']. *)
Definition DNA : sequence_dtype := {| gap_chars := ["-"; "."]%char |}.

Definition is_gap (dtype : sequence_dtype) (c : ascii) : bool :=
  existsb (Ascii.eqb c) (gap_chars dtype).


(** ** Conservation and gap masks *)

(** The inner loop of [_most_conserved]:
    [for gap in gap_chars: if gap in fv: del fv[gap]]. *)
Definition drop_gaps (sequence_dtype : sequence_dtype) (fv : dict) : dict :=
  fold_left
    (fun d gap => if dict_contains gap d then dict_del gap d else d)
    (gap_chars sequence_dtype) fv.

(** The body of the outer loop, on a vector whose gap entries are gone. *)
Definition conserved_fraction (fv : dict) : Np.float :=
  match dict_values fv with
  | [] => Np.Fin 0
  | v :: vs => Np.true_divide (Np.max v vs) (Np.sum (v :: vs))
  end.

(** The outer loop.  Each frequency vector is mutated in place, so the loop
    yields the vectors as the caller sees them afterwards, next to
    [result]. *)
Fixpoint most_conserved_loop (sequence_dtype : sequence_dtype)
    (frequencies : list dict) (result : list Np.float)
    : list dict * list Np.float :=
  match frequencies with
  | [] => ([], result)
  | frequency_vector :: rest =>
      let frequency_vector := drop_gaps sequence_dtype frequency_vector in
      let result := (result ++ [conserved_fraction frequency_vector])%list in
      let (rest, result) := most_conserved_loop sequence_dtype rest result in
      (frequency_vector :: rest, result)
  end.

Definition _most_conserved (sequence_dtype : sequence_dtype)
    (gap_mode : string) : Py (list dict) (list Np.float) :=
  fun frequencies =>
    if negb (gap_mode =? "ignore")%string then
      (frequencies,
       Raise (ValueError ("Unknown gap_mode: " ++ gap_mode
         ++ ". ignore is currently the only supported gap_mode.")))
    else
      let (frequencies, result) :=
        most_conserved_loop sequence_dtype frequencies [] in
      (frequencies, Ok result).

Definition _compute_conservation_mask (sequence_dtype : sequence_dtype)
    (min_conservation : Q) : Py (list dict) (list bool) :=
  (conserved <- _most_conserved sequence_dtype "ignore" ;;
   ret (map (fun c => Np.ge c min_conservation) conserved))%py.

(** [np.sum([f.get(gc, 0.0) for gc in sequence_dtype.gap_chars])]. *)
Definition gap_frequency_sum (sequence_dtype : sequence_dtype) (f : dict) : Q :=
  Np.sum (map (fun gc => dict_get gc f 0%Q) (gap_chars sequence_dtype)).

Definition _compute_gap_mask (frequencies : list dict)
    (sequence_dtype : sequence_dtype) (max_gap_frequency : Q)
    : result (list bool) :=
  match frequencies with
  | [] => Raise IndexError
  | first :: _ =>
      let num_sequences := Np.sum (dict_values first) in
      let gap_frequencies :=
        map (fun f =>
               Np.true_divide (gap_frequency_sum sequence_dtype f) num_sequences)
            frequencies in
      Ok (map (fun f => Np.le f max_gap_frequency) gap_frequencies)
  end.

(** ** Sequences and alignments *)

(** A scikit-bio sequence: its characters and its [metadata] dictionary
    with the keys ['id'] and ['description']. *)
Record Sequence : Type := {
  seq_chars : list ascii;
  seq_id : string;
  seq_description : string
}.

(** A label of the index of an alignment. *)
Inductive label : Type :=
| IntLabel (n : Z)
| StrLabel (s : string).

Definition label_eqb (a b : label) : bool :=
  match a, b with
  | IntLabel n, IntLabel m => n =? m
  | StrLabel s, StrLabel t => (s =? t)%string
  | _, _ => false
  end.

(** [skbio.TabularMSA]: the sequences, the index that keys them, and the
    class of the sequences. *)
Record TabularMSA : Type := {
  msa_seqs : list Sequence;
  msa_index : list label;
  msa_dtype : sequence_dtype
}.

(** [TabularMSA(seqs)]: the default index is 0, 1, 2, ... *)
Definition new_TabularMSA (dtype : sequence_dtype) (seqs : list Sequence)
    : TabularMSA :=
  {| msa_seqs := seqs;
     msa_index := map (fun i => IntLabel (Z.of_nat i)) (seq 0 (List.length seqs));
     msa_dtype := dtype |}.

(** [alignment.shape.sequence]. *)
Definition shape_sequence (a : TabularMSA) : nat := List.length (msa_seqs a).

(** [alignment.shape.position], also [alignment.shape[1]]. *)
Definition shape_position (a : TabularMSA) : nat :=
  match msa_seqs a with
  | [] => O
  | s :: _ => List.length (seq_chars s)
  end.

(** The class invariant of [TabularMSA]: every sequence has as many
    characters as the alignment has positions, and every sequence has a
    label. *)
Definition msa_wf (a : TabularMSA) : Prop :=
  Forall (fun s => List.length (seq_chars s) = shape_position a) (msa_seqs a)
  /\ List.length (msa_index a) = List.length (msa_seqs a).

(** The characters of column [i], top to bottom. *)
Definition column (a : TabularMSA) (i : nat) : list ascii :=
  map (fun s => nth i (seq_chars s) "000"%char) (msa_seqs a).

(** [alignment.iter_positions()]: one column per position. *)
Definition iter_positions (a : TabularMSA) : list (list ascii) :=
  map (column a) (seq 0 (shape_position a)).

(** [Sequence.frequencies()]: the absolute count of every character that
    occurs, in increasing character code ([np.bincount], [np.nonzero]).
    The dictionary is built anew by every call. *)
Definition frequencies (chars : list ascii) : dict :=
  flat_map
    (fun code =>
       let c := ascii_of_nat code in
       let n := count_occ ascii_dec chars c in
       if (n =? 0)%nat then [] else [(c, inject_Z (Z.of_nat n))])
    (seq 0 256).

Definition _compute_frequencies (alignment : TabularMSA) : list dict :=
  map frequencies (iter_positions alignment).

(** Boolean-array indexing [xs[mask]]. *)
Fixpoint select {A} (xs : list A) (mask : list bool) : list A :=
  match xs, mask with
  | x :: xs', b :: mask' =>
      if b then x :: select xs' mask' else select xs' mask'
  | _, _ => []
  end.

Definition seq_with_chars (s : Sequence) (chars : list ascii) : Sequence :=
  {| seq_chars := chars;
     seq_id := seq_id s;
     seq_description := seq_description s |}.

(** [alignment[:, mask]]: a new alignment with the same index. *)
Definition _apply_mask (alignment : TabularMSA) (mask : list bool)
    : TabularMSA :=
  {| msa_seqs :=
       map (fun s => seq_with_chars s (select (seq_chars s) mask))
           (msa_seqs alignment);
     msa_index := msa_index alignment;
     msa_dtype := msa_dtype alignment |}.

(** [alignment[:, start:]]: a new alignment with the same index. *)
Definition slice_from (alignment : TabularMSA) (start : nat) : TabularMSA :=
  {| msa_seqs :=
       map (fun s => seq_with_chars s (skipn start (seq_chars s)))
           (msa_seqs alignment);
     msa_index := msa_index alignment;
     msa_dtype := msa_dtype alignment |}.

(** What a function hands back when its parameter is an alignment: the
    object it was given, or an object it built. *)
Inductive returned : Type :=
| TheInput
| New (a : TabularMSA).

(** The alignment the caller holds after the call. *)
Definition value_of (input_after : TabularMSA) (r : returned) : TabularMSA :=
  match r with
  | TheInput => input_after
  | New a => a
  end.

(** [gap_mask & conservation_mask]. *)
Fixpoint mask_and (a b : list bool) : list bool :=
  match a, b with
  | x :: a', y :: b' => (x && y) :: mask_and a' b'
  | _, _ => []
  end.

(** ** [mask] *)

Definition out_of_unit_interval (x : Q) : bool :=
  Np.Qlt_bool x 0 || Np.Qlt_bool 1 x.

Definition no_positions_message (str_passed_gap str_passed_conservation : string)
    : string :=
  "No alignment positions remain after filtering. The "
  ++ "filter thresholds will need to be relaxed. " ++ str_passed_gap ++ " "
  ++ "of positions were retained by the gap filter, and "
  ++ str_passed_conservation ++ " of positions were retained by the "
  ++ "conservation filter.".

Definition max_gap_frequency_message (max_gap_frequency : Q) : string :=
  "max_gap_frequency out of range [0.0, 1.0]: " ++ Fmt.f max_gap_frequency.

Definition min_conservation_message (min_conservation : Q) : string :=
  "min_conservation out of range [0.0, 1.0]: " ++ Fmt.f min_conservation.

Definition empty_alignment_message : string :=
  "Input alignment is empty (i.e., there are zero "
  ++ "sequences or positions in the input alignment).".

(** Run a computation on an object that is local to the caller's frame;
    the object is dropped afterwards. *)
Definition on_local {S L A} (l : L) (m : Py L A) : Py S A :=
  fun s => (s, snd (m l)).

(** [mask(alignment, max_gap_frequency, min_conservation)]; the state is
    the object bound to [alignment]. *)
Definition mask (max_gap_frequency min_conservation : Q)
    : Py TabularMSA returned :=
  (if out_of_unit_interval max_gap_frequency then
     raise (ValueError (max_gap_frequency_message max_gap_frequency))
   else if out_of_unit_interval min_conservation then
     raise (ValueError (min_conservation_message min_conservation))
   else
     alignment <- get ;;
     if (shape_position alignment =? 0)%nat then
       raise (ValueError empty_alignment_message)
     else
       let frequencies := _compute_frequencies alignment in
       let sequence_dtype := msa_dtype alignment in
       gap_mask <-
         lift (_compute_gap_mask frequencies sequence_dtype max_gap_frequency) ;;
       conservation_mask <-
         on_local frequencies
           (_compute_conservation_mask sequence_dtype min_conservation) ;;
       let combined_mask := mask_and gap_mask conservation_mask in
       let result := _apply_mask alignment combined_mask in
       if (shape_position result =? 0)%nat then
         let num_input_positions :=
           inject_Z (Z.of_nat (shape_position alignment)) in
         let frac_passed_gap :=
           Np.true_divide (inject_Z (Np.count_true gap_mask))
                          num_input_positions in
         let str_passed_gap := Fmt.percent frac_passed_gap in
         let frac_passed_conservation :=
           Np.true_divide (inject_Z (Np.count_true conservation_mask))
                          num_input_positions in
         let str_passed_conservation := Fmt.percent frac_passed_conservation in
         raise (ValueError
                  (no_positions_message str_passed_gap str_passed_conservation))
       else ret (New result))%py.

(** ** [filter_positions] *)

(** [alignment.reassign_index(minter='id')]: the index of the object is
    replaced, in place, by the ['id'] of every sequence. *)
Definition reassign_index_id (a : TabularMSA) : TabularMSA :=
  {| msa_seqs := msa_seqs a;
     msa_index := map (fun s => StrLabel (seq_id s)) (msa_seqs a);
     msa_dtype := msa_dtype a |}.

(** What [alignment.loc[label]] yields: the sequence under a label that
    occurs once, an alignment of the rows under a label that occurs more
    than once. *)
Inductive located : Type :=
| OneSequence (s : Sequence)
| Rows (rows : list Sequence).

Definition label_text (l : label) : string :=
  match l with
  | IntLabel n => Fmt.int n
  | StrLabel s => s
  end.

Definition loc (l : label) : Py TabularMSA located :=
  fun a =>
    match filter (fun row => label_eqb l (fst row))
                 (combine (msa_index a) (msa_seqs a)) with
    | [] => (a, Raise (KeyError (label_text l)))
    | [(_, s)] => (a, Ok (OneSequence s))
    | rows => (a, Ok (Rows (map snd rows)))
    end.

(** [x.gaps()]: defined on a sequence; an alignment has no such method. *)
Definition gaps_of (dtype : sequence_dtype) (x : located) : result (list bool) :=
  match x with
  | OneSequence s => Ok (map (is_gap dtype) (seq_chars s))
  | Rows _ => Raise AttributeError
  end.

(** [reference_array = np.zeros(n) - 1; reference_array[non_gaps] = range(0, k)]:
    the non-gap columns are numbered from [next] on, the others hold -1. *)
Fixpoint reference_array_from (next : Z) (non_gaps : list bool) : list Z :=
  match non_gaps with
  | [] => []
  | true :: rest => next :: reference_array_from (next + 1) rest
  | false :: rest => -1 :: reference_array_from next rest
  end.

(** [np.argwhere(xs == v)[0][0]], the columns counted from [i]. *)
Fixpoint argwhere_first (xs : list Z) (v : Z) (i : nat) : result nat :=
  match xs with
  | [] => Raise IndexError
  | x :: rest => if x =? v then Ok i else argwhere_first rest v (S i)
  end.

(** [filter_positions(alignment, reference_id, start, end)]; the state is
    the object bound to [alignment] on entry. *)
Definition filter_positions (reference_id : string) (start end_ : Z)
    : Py TabularMSA returned :=
  (let start := start - 1 in
   if end_ <? start then
     raise (ValueError "end must be greater than start")
   else
     modify reassign_index_id ;;
     non_gaps <-
       except_KeyError
         (ref <- loc (StrLabel reference_id) ;;
          alignment <- get ;;
          gaps <- lift (gaps_of (msa_dtype alignment) ref) ;;
          ret (map negb gaps))
         (KeyError (reference_id ++ " not found in alignment.")) ;;
     let count_non_gaps := Np.count_true non_gaps in
     if count_non_gaps <? end_ then
       raise (ValueError ("end position (" ++ Fmt.int end_
                ++ ") is larger than the length "
                ++ "of the reference sequence (" ++ Fmt.int count_non_gaps
                ++ ")"))
     else
       let reference_array := reference_array_from 0 non_gaps in
       aln_start <- lift (argwhere_first reference_array start 0) ;;
       if end_ =? count_non_gaps then
         alignment <- get ;;
         ret (New (slice_from alignment aln_start))
       else
         aln_end <- lift (argwhere_first reference_array end_ 0) ;;
         ret TheInput)%py.

(** ** [filter_seqs] *)

(** The [pd.Series] under construction: identifiers in first-seen order. *)
Definition Series : Type := list (string * Sequence).

(** [result[key] = value]: a known key keeps its place and takes the new
    value, a new key is appended. *)
Fixpoint series_set (key : string) (value : Sequence) (s : Series) : Series :=
  match s with
  | [] => [(key, value)]
  | (k, v) :: rest =>
      if (key =? k)%string then (key, value) :: rest
      else (k, v) :: series_set key value rest
  end.

(** [seq.gaps()], [seq.degap()] and
    [seq.frequencies(chars={c}, relative=True)[c]] of a DNA sequence. *)
Definition gaps (seq : Sequence) : list bool :=
  map (is_gap DNA) (seq_chars seq).

Definition degap (seq : Sequence) : Sequence :=
  seq_with_chars seq (filter (fun c => negb (is_gap DNA c)) (seq_chars seq)).

Definition relative_frequency (c : ascii) (seq : Sequence) : Np.float :=
  Np.true_divide
    (inject_Z (Z.of_nat (count_occ ascii_dec (seq_chars seq) c)))
    (inject_Z (Z.of_nat (List.length (seq_chars seq)))).

(** The three tests of the loop body; [true] when no [continue] is taken. *)
Definition passes (max_gap_frequency max_n_frequency : Q)
    (min_length : Z) (max_length : option Z) (seq : Sequence) : bool :=
  let seq_len := Z.of_nat (List.length (seq_chars seq)) in
  if (seq_len <? min_length)
     || match max_length with
        | Some m => m <? seq_len
        | None => false
        end
  then false
  else
    let gap_count := Np.count_true (gaps seq) in
    let frac_gap := Np.true_divide (inject_Z gap_count) (inject_Z seq_len) in
    if Np.gt frac_gap max_gap_frequency then false
    else
      let degapped_seq := degap seq in
      let frac_n := relative_frequency "N" degapped_seq in
      if Np.gt frac_n max_n_frequency then false else true.

(** The [for] loop, from the [result] built so far. *)
Definition filter_seqs_loop (max_gap_frequency max_n_frequency : Q)
    (min_length : Z) (max_length : option Z)
    (seqs : list Sequence) (result : Series) : Series :=
  fold_left
    (fun result seq =>
       if passes max_gap_frequency max_n_frequency min_length max_length seq
       then series_set (seq_id seq) seq result
       else result)
    seqs result.

Definition filter_seqs (seqs : list Sequence)
    (max_gap_frequency max_n_frequency : Q)
    (min_length : Z) (max_length : option Z) : Series :=
  filter_seqs_loop max_gap_frequency max_n_frequency min_length max_length
    seqs [].

(** ** The alignments of the test suite *)

Definition dna (id chars : string) : Sequence :=
  {| seq_chars := list_ascii_of_string chars;
     seq_id := id;
     seq_description := EmptyString |}.

Definition chars_of (a : TabularMSA) : list (string * string) :=
  map (fun s => (seq_id s, string_of_list_ascii (seq_chars s))) (msa_seqs a).

Definition aln_full_reference : TabularMSA :=
  new_TabularMSA DNA
    [dna "s1" "CCA-T-AGA"; dna "s2" "T---T-ATA"; dna "s3" "---GTTATA"].


Definition aln_basic : TabularMSA :=
  new_TabularMSA DNA [dna "seq1" "AGA"; dna "seq2" "-GA"; dna "seq3" "-GC"].

(** ** Notions the statements below are phrased in *)

(** The sequences of an alignment that carry a given identifier. *)
Definition rows_with_id (a : TabularMSA) (id : string) : list Sequence :=
  filter (fun s => (seq_id s =? id)%string) (msa_seqs a).

(** The number of non-gap characters of a sequence. *)
Definition ungapped_length (dtype : sequence_dtype) (s : Sequence) : Z :=
  Np.count_true (map negb (map (is_gap dtype) (seq_chars s))).

(** The invariant of a Python [dict]: a key occurs once. *)
Definition dict_wf (d : dict) : Prop := NoDup (dict_keys d).

(** A frequency vector with every entry keyed by a gap character removed,
    and the entries so removed. *)
Definition without_gaps (dtype : sequence_dtype) (fv : dict) : dict :=
  filter (fun kv => negb (is_gap dtype (fst kv))) fv.

Definition gap_entries (dtype : sequence_dtype) (fv : dict) : dict :=
  filter (fun kv => is_gap dtype (fst kv)) fv.

(** The columns of a table of [n] columns given by its rows, taken off the
    front one at a time. *)
Fixpoint columns_of (n : nat) (rows : list (list ascii)) : list (list ascii) :=
  match n with
  | O => []
  | S n' => map (hd "000"%char) rows :: columns_of n' (map (@tl ascii) rows)
  end.

(** The number of [True] entries of a mask. *)
Definition count (m : list bool) : nat := List.length (filter (fun b => b) m).

(** The test [_compute_gap_mask] applies to a column, for a given count of
    sequences, and the test [_compute_conservation_mask] applies. *)
Definition gap_bit (dtype : sequence_dtype) (max_gap_frequency : Q)
    (num_sequences : Q) (f : dict) : bool :=
  Np.le (Np.true_divide (gap_frequency_sum dtype f) num_sequences)
        max_gap_frequency.

Definition conservation_bit (dtype : sequence_dtype) (min_conservation : Q)
    (f : dict) : bool :=
  Np.ge (conserved_fraction (drop_gaps dtype f)) min_conservation.

(** The two masks of an alignment, the share of its columns a mask keeps,
    and the outcome of [mask] in terms of them. *)
Definition gap_mask_of (a : TabularMSA) (g : Q) : list bool :=
  map (gap_bit (msa_dtype a) g (inject_Z (Z.of_nat (shape_sequence a))))
      (_compute_frequencies a).

Definition conservation_mask_of (a : TabularMSA) (c : Q) : list bool :=
  map (conservation_bit (msa_dtype a) c) (_compute_frequencies a).

Definition passed (m : list bool) (a : TabularMSA) : Np.float :=
  Np.true_divide (inject_Z (Np.count_true m))
                 (inject_Z (Z.of_nat (shape_position a))).

Definition mask_outcome (g c : Q) (a : TabularMSA) : result returned :=
  if out_of_unit_interval g then
    Raise (ValueError (max_gap_frequency_message g))
  else if out_of_unit_interval c then
    Raise (ValueError (min_conservation_message c))
  else if (shape_position a =? 0)%nat then
    Raise (ValueError empty_alignment_message)
  else
    let gap_mask := gap_mask_of a g in
    let conservation_mask := conservation_mask_of a c in
    let result := _apply_mask a (mask_and gap_mask conservation_mask) in
    if (shape_position result =? 0)%nat then
      Raise (ValueError
               (no_positions_message
                  (Fmt.percent (passed gap_mask a))
                  (Fmt.percent (passed conservation_mask a))))
    else Ok (New result).




(** A computation that leaves the object of its caller as it found it. *)
Definition readonly {S A} (m : Py S A) : Prop := forall s, fst (m s) = s.

(** ** Notions for the further properties *)

(** The non-gap characters of a sequence, in order. *)
Definition residues (dtype : sequence_dtype) (chars : list ascii) : list ascii :=
  filter (fun c => negb (is_gap dtype c)) chars.

(** The columns [mask] keeps: those that pass both tests. *)
Definition kept_columns (a : TabularMSA) (g c : Q) : list bool :=
  mask_and (gap_mask_of a g) (conservation_mask_of a c).

(** One mask keeps at least the columns another keeps. *)
Definition mask_le (m m' : list bool) : Prop :=
  Forall2 (fun b b' => b = true -> b' = true) m m'.

(** [max_length] read as a bound: [None] is no bound. *)
Definition max_length_le (m m' : option Z) : Prop :=
  match m, m' with
  | _, None => True
  | None, Some _ => False
  | Some x, Some y => x <= y
  end.

(** *** Registered parameter ranges ([plugin_setup.py]) *)

(** [qiime2.plugin.Range(start, end, inclusive_start, inclusive_end)]. *)
Record Range : Type := {
  range_start : option Q;
  range_end : option Q;
  inclusive_start : bool;
  inclusive_end : bool
}.

(** Membership of a value in a range: each bound that is given is tested,
    strictly unless it is inclusive. *)
Definition in_range (r : Range) (value : Q) : bool :=
  match range_start r with
  | Some start =>
      if inclusive_start r then negb (Np.Qlt_bool value start)
      else negb (Qle_bool value start)
  | None => true
  end
  && match range_end r with
     | Some end_ =>
         if inclusive_end r then negb (Np.Qlt_bool end_ value)
         else negb (Qle_bool end_ value)
     | None => true
     end.

(** [Float % Range(0, 1, inclusive_end=True)], registered for both
    parameters of [mask] and for the two frequencies of [filter_seqs]. *)
Definition registered_frequency : Range :=
  {| range_start := Some 0%Q; range_end := Some 1%Q;
     inclusive_start := true; inclusive_end := true |}.

(** [Int % Range(1, None)], registered for [start] and [end] of
    [filter_positions] and for [max_length] of [filter_seqs]. *)
Definition registered_position : Range :=
  {| range_start := Some 1%Q; range_end := None;
     inclusive_start := true; inclusive_end := false |}.

(** [Int % Range(0, None)], registered for [min_length] of [filter_seqs]. *)
Definition registered_min_length : Range :=
  {| range_start := Some 0%Q; range_end := None;
     inclusive_start := true; inclusive_end := false |}.

(** *** [filter_seqs] over the sequence objects of the stream *)

(** The methods [filter_seqs] calls on a sequence, as computations over
    the object: [len(seq)], [seq.gaps()], [seq.degap()] (which builds a
    new sequence) and [seq.metadata['id']]. *)
Definition len_ : Py Sequence Z :=
  fun seq => (seq, Ok (Z.of_nat (List.length (seq_chars seq)))).

Definition gaps_ : Py Sequence (list bool) :=
  fun seq => (seq, Ok (gaps seq)).

Definition degap_ : Py Sequence Sequence :=
  fun seq => (seq, Ok (degap seq)).

Definition metadata_id : Py Sequence string :=
  fun seq => (seq, Ok (seq_id seq)).

(** The body of the loop of [filter_seqs] on one object of the stream;
    it yields the series as it is after this round. *)
Definition filter_seqs_body (max_gap_frequency max_n_frequency : Q)
    (min_length : Z) (max_length : option Z) (so_far : Series)
    : Py Sequence Series :=
  (seq_len <- len_ ;;
   if (seq_len <? min_length)
      || match max_length with
         | Some m => m <? seq_len
         | None => false
         end
   then ret so_far
   else
     gap_array <- gaps_ ;;
     let gap_count := Np.count_true gap_array in
     let frac_gap := Np.true_divide (inject_Z gap_count) (inject_Z seq_len) in
     if Np.gt frac_gap max_gap_frequency then ret so_far
     else
       degapped_seq <- degap_ ;;
       let frac_n := relative_frequency "N" degapped_seq in
       if Np.gt frac_n max_n_frequency then ret so_far
       else
         id <- metadata_id ;;
         seq <- get ;;
         ret (series_set id seq so_far))%py.

(** The loop over the objects of the stream: the objects as they are
    after the call, and what the call returns. *)
Fixpoint filter_seqs_objects (max_gap_frequency max_n_frequency : Q)
    (min_length : Z) (max_length : option Z)
    (seqs : list Sequence) (so_far : Series)
    : list Sequence * result Series :=
  match seqs with
  | [] => ([], Ok so_far)
  | seq :: rest =>
      match filter_seqs_body max_gap_frequency max_n_frequency
              min_length max_length so_far seq with
      | (seq_after, Ok so_far) =>
          let (rest_after, outcome) :=
            filter_seqs_objects max_gap_frequency max_n_frequency
              min_length max_length rest so_far in
          (seq_after :: rest_after, outcome)
      | (seq_after, Raise e) => (seq_after :: rest, Raise e)
      end
  end.

(** * Properties *)

(** ** The monad *)

Lemma bind_ok {S A B} (m : Py S A) (k : A -> Py S B) s s' a :
  m s = (s', Ok a) -> bind m k s = k a s'.
Proof. intros H; unfold bind; now rewrite H. Qed.

Lemma bind_raise {S A B} (m : Py S A) (k : A -> Py S B) s s' e :
  m s = (s', Raise e) -> bind m k s = (s', Raise e).
Proof. intros H; unfold bind; now rewrite H. Qed.

(** ** [filter_positions] *)

Section FilterPositions.

Lemma filter_combine_map {A B} (f : A -> B) (p : B -> bool) (l : list A) :
  filter (fun row => p (fst row)) (combine (map f l) l)
  = map (fun x => (f x, x)) (filter (fun x => p (f x)) l).
Proof.
  induction l as [|x l IH]; simpl; [reflexivity|].
  destruct (p (f x)); simpl; now rewrite IH.
Qed.

(** After the index has been re-keyed, [loc] looks a sequence up by its
    identifier. *)
Lemma loc_reassign_index_id (a : TabularMSA) (id : string) :
  loc (StrLabel id) (reassign_index_id a)
  = (reassign_index_id a,
     match rows_with_id a id with
     | [] => Raise (KeyError id)
     | [s] => Ok (OneSequence s)
     | rows => Ok (Rows rows)
     end).
Proof.
  unfold loc, rows_with_id; cbn [msa_index msa_seqs reassign_index_id].
  rewrite (filter_combine_map (fun s => StrLabel (seq_id s))
             (label_eqb (StrLabel id))).
  cbn [label_eqb].
  replace (filter (fun x => (id =? seq_id x)%string) (msa_seqs a))
    with (filter (fun s => (seq_id s =? id)%string) (msa_seqs a))
    by (apply filter_ext; intros; apply String.eqb_sym).
  destruct (filter _ (msa_seqs a)) as [|s [|s' rows]]; cbn; try reflexivity.
  now rewrite map_map, map_id.
Qed.

Lemma count_true_nonneg (m : list bool) : 0 <= Np.count_true m.
Proof. unfold Np.count_true; lia. Qed.

Lemma count_true_cons (b : bool) (m : list bool) :
  Np.count_true (b :: m) = (if b then 1 else 0) + Np.count_true m.
Proof. unfold Np.count_true; destruct b; cbn [filter List.length]; lia. Qed.

(** Every entry of the reference array is the sentinel or an ungapped
    index below the ungapped length. *)
Lemma reference_array_range (non_gaps : list bool) :
  forall next x,
    In x (reference_array_from next non_gaps) ->
    x = -1 \/ next <= x < next + Np.count_true non_gaps.
Proof.
  induction non_gaps as [|b rest IH]; intros next x Hin; [contradiction|].
  rewrite count_true_cons.
  pose proof (count_true_nonneg rest).
  destruct b; cbn [reference_array_from] in Hin;
    destruct Hin as [<-|Hin]; try lia; try (now left);
    apply IH in Hin; lia.
Qed.

Lemma argwhere_first_absent (xs : list Z) (v : Z) :
  forall i, ~ In v xs -> argwhere_first xs v i = Raise IndexError.
Proof.
  induction xs as [|x xs IH]; intros i Hnot; [reflexivity|].
  cbn [argwhere_first].
  destruct (Z.eqb_spec x v) as [->|_].
  - exfalso; apply Hnot; now left.
  - apply IH; intros Hin; apply Hnot; now right.
Qed.

Lemma argwhere_first_present (xs : list Z) (v : Z) :
  forall i, In v xs -> exists j, argwhere_first xs v i = Ok j.
Proof.
  induction xs as [|x xs IH]; intros i Hin; [contradiction|].
  cbn [argwhere_first].
  destruct (Z.eqb_spec x v) as [->|Hne]; [now exists i|].
  destruct Hin as [->|Hin]; [contradiction|]. now apply IH.
Qed.

(** The part of [filter_positions] after the first check, for a
    reference identifier that one sequence carries. *)
Lemma filter_positions_unique_reference
    (a : TabularMSA) (reference_id : string) (s : Sequence) (start end_ : Z) :
  rows_with_id a reference_id = [s] ->
  (end_ <? start - 1) = false ->
  filter_positions reference_id start end_ a
  = let non_gaps := map negb (map (is_gap (msa_dtype a)) (seq_chars s)) in
    let count_non_gaps := Np.count_true non_gaps in
    let a' := reassign_index_id a in
    if count_non_gaps <? end_ then
      (a', Raise (ValueError ("end position (" ++ Fmt.int end_
              ++ ") is larger than the length "
              ++ "of the reference sequence (" ++ Fmt.int count_non_gaps
              ++ ")")))
    else
      match argwhere_first (reference_array_from 0 non_gaps) (start - 1) 0 with
      | Raise e => (a', Raise e)
      | Ok aln_start =>
          if end_ =? count_non_gaps then (a', Ok (New (slice_from a' aln_start)))
          else
            match argwhere_first (reference_array_from 0 non_gaps) end_ 0 with
            | Raise e => (a', Raise e)
            | Ok _ => (a', Ok TheInput)
            end
      end.
Proof.
  intros Hrow Hcheck.
  unfold filter_positions. rewrite Hcheck.
  unfold bind at 1, modify at 1.
  unfold bind at 1, except_KeyError.
  unfold bind at 1. rewrite loc_reassign_index_id, Hrow.
  unfold bind, get, lift, ret, raise; cbn [gaps_of msa_dtype reassign_index_id].
  cbv zeta.
  destruct (_ <? end_); [reflexivity|].
  destruct (argwhere_first _ (start - 1) 0); [|reflexivity].
  destruct (end_ =? _); [reflexivity|].
  destruct (argwhere_first _ end_ 0); reflexivity.
Qed.

End FilterPositions.

(** C1 (the code departs from the claim).  With reference 's3', start 1 and
    end 6 = the ungapped length, the alignment of the test suite is cut to
    the columns from the first residue of 's3' on, as claimed.  With end 5,
    below the ungapped length, the column of [end] is looked up and then
    not used: the call hands back the alignment it was given, all nine
    columns, and not the columns from the one of [start] through the one
    of [end]. *)
Theorem filter_positions_end_below_length_is_not_sliced :
  filter_positions "s3" 1 6 aln_full_reference
  = (reassign_index_id aln_full_reference,
     Ok (New (slice_from (reassign_index_id aln_full_reference) 3)))
  /\ chars_of (slice_from (reassign_index_id aln_full_reference) 3)
     = [("s1", "-T-AGA"); ("s2", "-T-ATA"); ("s3", "GTTATA")]
  /\ filter_positions "s3" 1 5 aln_full_reference
     = (reassign_index_id aln_full_reference, Ok TheInput)
  /\ chars_of (reassign_index_id aln_full_reference)
     = [("s1", "CCA-T-AGA"); ("s2", "T---T-ATA"); ("s3", "---GTTATA")].
Proof. repeat split; vm_compute; reflexivity. Qed.

(** C3 (the code departs from the claim).  The check compares [end] with
    the start already moved to 0-based, so it fires only for
    [end < start - 1]: the call with start 2 and end 1, where end is less
    than the 1-based start, raises nothing and hands the alignment back,
    while from start 3 and end 1 on the error is raised. *)
Theorem filter_positions_accepts_end_one_below_start :
  snd (filter_positions "s1" 2 1 aln_full_reference) = Ok TheInput
  /\ snd (filter_positions "s1" 3 1 aln_full_reference)
     = Raise (ValueError "end must be greater than start").
Proof. split; reflexivity. Qed.

(** C4.  For every alignment and every reference identifier carried by one
    sequence, of ungapped length L, the call with start = L + 1 and
    end = L passes the end-versus-start check, the lookup of the reference
    and the end-versus-length check, and then finds no column mapped to
    the converted start L: it ends in an [IndexError], which is neither
    the invalid-argument nor the not-found error. *)
Theorem filter_positions_start_past_reference_raises_IndexError
    (a : TabularMSA) (reference_id : string) (s : Sequence) :
  rows_with_id a reference_id = [s] ->
  let L := ungapped_length (msa_dtype a) s in
  (L <? (L + 1) - 1) = false
  /\ (L <? L) = false
  /\ filter_positions reference_id (L + 1) L a
     = (reassign_index_id a, Raise IndexError).
Proof.
  intros Hrow L.
  assert (H1 : (L <? (L + 1) - 1) = false) by (apply Z.ltb_ge; lia).
  assert (H2 : (L <? L) = false) by apply Z.ltb_irrefl.
  split; [exact H1|split; [exact H2|]].
  rewrite (filter_positions_unique_reference a reference_id s _ _ Hrow H1).
  cbv zeta. fold (ungapped_length (msa_dtype a) s). fold L.
  rewrite H2.
  replace (L + 1 - 1) with L by lia.
  rewrite argwhere_first_absent; [reflexivity|].
  intros Hin. apply reference_array_range in Hin.
  fold (ungapped_length (msa_dtype a) s) in Hin. fold L in Hin.
  pose proof (count_true_nonneg
                (map negb (map (is_gap (msa_dtype a)) (seq_chars s)))) as Hge.
  fold (ungapped_length (msa_dtype a) s) in Hge. fold L in Hge.
  lia.
Qed.

Lemma filter_positions_start_past_reference_witness :
  rows_with_id aln_full_reference "s1" = [dna "s1" "CCA-T-AGA"]
  /\ filter_positions "s1" 8 7 aln_full_reference
     = (reassign_index_id aln_full_reference, Raise IndexError).
Proof.
  split; [reflexivity|].
  exact (proj2 (proj2
    (filter_positions_start_past_reference_raises_IndexError
       aln_full_reference "s1" (dna "s1" "CCA-T-AGA") eq_refl))).
Defined.

(** ** Sums and maxima of frequencies *)

Section Sums.

Local Open Scope Q_scope.

Lemma fold_left_Qplus_acc (l : list Q) :
  forall a, fold_left Qplus l a == a + fold_left Qplus l 0.
Proof.
  induction l as [|x l IH]; intros a; cbn [fold_left]; [ring|].
  rewrite (IH (a + x)), (IH (0 + x)). ring.
Qed.

Lemma sum_nil : Np.sum [] = 0%Q.
Proof. reflexivity. Qed.

Lemma sum_cons (x : Q) (l : list Q) : Np.sum (x :: l) == x + Np.sum l.
Proof.
  unfold Np.sum; cbn [fold_left].
  rewrite fold_left_Qplus_acc. ring.
Qed.

Lemma max_ge_start (l : list Q) : forall a, a <= Np.max a l.
Proof.
  unfold Np.max.
  induction l as [|x l IH]; intros a; cbn [fold_left]; [apply Qle_refl|].
  eapply Qle_trans; [apply Q.le_max_l|apply IH].
Qed.

(** On positive numbers the running maximum never overtakes the running
    sum. *)
Lemma max_le_sum_from (l : list Q) :
  Forall (fun x => 0 < x) l ->
  forall a s, 0 <= s -> a <= s ->
    fold_left Qmax l a <= fold_left Qplus l s.
Proof.
  induction 1 as [|x l Hx _ IH]; intros a s Hs Has; cbn [fold_left];
    [exact Has|].
  apply IH; [lra|].
  apply Q.max_lub; lra.
Qed.

Lemma max_le_sum (v : Q) (vs : list Q) :
  Forall (fun x => 0 < x) (v :: vs) ->
  0 < Np.max v vs /\ Np.max v vs <= Np.sum (v :: vs).
Proof.
  intros Hpos. inversion Hpos as [|? ? Hv Hvs]; subst.
  split.
  - eapply Qlt_le_trans; [exact Hv|apply max_ge_start].
  - unfold Np.max, Np.sum; cbn [fold_left].
    apply max_le_sum_from; [exact Hvs|lra|lra].
Qed.

(** A quotient of a positive number by one that is no smaller lies in
    the unit interval. *)
Lemma true_divide_unit_interval (m s : Q) :
  0 < m -> m <= s ->
  exists q, Np.true_divide m s = Np.Fin q /\ 0 <= q <= 1.
Proof.
  intros Hm Hms.
  assert (Hs : 0 < s) by lra.
  unfold Np.true_divide.
  destruct (Qeq_bool s 0) eqn:E.
  - apply Qeq_bool_iff in E. lra.
  - exists (m / s). split; [reflexivity|]. split.
    + apply Qle_shift_div_l; [exact Hs|lra].
    + apply Qle_shift_div_r; [exact Hs|lra].
Qed.

(** Comparing a quotient with a threshold depends on the operands up to
    equality of rationals only. *)
Lemma le_true_divide_Qeq (x x' n n' g : Q) :
  x == x' -> n == n' ->
  Np.le (Np.true_divide x n) g = Np.le (Np.true_divide x' n') g.
Proof.
  intros Hx Hn. unfold Np.true_divide.
  rewrite Hn, Hx.
  destruct (Qeq_bool n' 0) eqn:E; [reflexivity|].
  cbn [Np.le]. apply Qeq_bool_neq in E.
  assert (H : x / n == x' / n') by (rewrite Hx, Hn; reflexivity).
  now rewrite H.
Qed.

End Sums.

(** ** Deleting gap entries *)

Section DropGaps.

Local Open Scope Q_scope.

Variable dtype : sequence_dtype.

Lemma filter_keys_absent (g : ascii) (d : dict) :
  ~ In g (dict_keys d) ->
  filter (fun kv => negb (Ascii.eqb g (fst kv))) d = d.
Proof.
  induction d as [|[k v] d IH]; intros Hnot; cbn; [reflexivity|].
  destruct (Ascii.eqb_spec g k) as [->|_].
  - exfalso; apply Hnot; now left.
  - cbn. f_equal. apply IH. intros Hin; apply Hnot; now right.
Qed.

(** One step of the deletion loop removes the entry of the gap
    character, if there is one. *)
Lemma del_if_present (g : ascii) (d : dict) :
  dict_wf d ->
  (if dict_contains g d then dict_del g d else d)
  = filter (fun kv => negb (Ascii.eqb g (fst kv))) d.
Proof.
  unfold dict_wf.
  induction d as [|[k v] d IH]; intros Hwf; [reflexivity|].
  inversion Hwf as [|? ? Hk Hd]; subst.
  cbn [dict_contains dict_del filter fst].
  destruct (Ascii.eqb_spec g k) as [->|Hne]; cbn [orb negb].
  - symmetry. now apply filter_keys_absent.
  - rewrite <- (IH Hd).
    now destruct (dict_contains g d).
Qed.

Lemma dict_wf_filter (p : ascii * Q -> bool) (d : dict) :
  dict_wf d -> dict_wf (filter p d).
Proof.
  unfold dict_wf, dict_keys.
  induction d as [|kv d IH]; intros Hwf; [exact Hwf|].
  inversion Hwf as [|? ? Hk Hd]; subst. cbn [filter].
  destruct (p kv); [|now apply IH].
  cbn [map]. constructor; [|now apply IH].
  intros Hin. apply Hk.
  apply in_map_iff in Hin as [kv' [Heq Hin]].
  apply filter_In in Hin as [Hin _].
  apply in_map_iff. now exists kv'.
Qed.

Lemma filter_twice {A} (p q : A -> bool) (l : list A) :
  filter p (filter q l) = filter (fun x => q x && p x) l.
Proof.
  induction l as [|x l IH]; cbn [filter]; [reflexivity|].
  destruct (q x); cbn [filter andb]; [|exact IH].
  destruct (p x); now rewrite IH.
Qed.

Lemma drop_loop_filter (G : list ascii) :
  forall d, dict_wf d ->
    fold_left (fun d gap => if dict_contains gap d then dict_del gap d else d)
              G d
    = filter (fun kv => negb (existsb (Ascii.eqb (fst kv)) G)) d.
Proof.
  induction G as [|g G IH]; intros d Hwf; cbn [fold_left existsb].
  - symmetry. apply forallb_filter_id. now apply forallb_forall.
  - rewrite del_if_present by exact Hwf.
    rewrite IH by now apply dict_wf_filter.
    rewrite filter_twice. apply filter_ext.
    intros [k v]; cbn [fst]. rewrite (Ascii.eqb_sym g k).
    now destruct (Ascii.eqb k g), (existsb (Ascii.eqb k) G).
Qed.

(** The deletion loop of [_most_conserved] removes exactly the entries
    keyed by a gap character. *)
Lemma drop_gaps_without_gaps (fv : dict) :
  dict_wf fv -> drop_gaps dtype fv = without_gaps dtype fv.
Proof. intros Hwf. unfold drop_gaps. now rewrite drop_loop_filter. Qed.

Lemma most_conserved_loop_map (frequencies : list dict) :
  forall result,
    most_conserved_loop dtype frequencies result
    = (map (drop_gaps dtype) frequencies,
       (result
          ++ map (fun fv => conserved_fraction (drop_gaps dtype fv))
                 frequencies)%list).
Proof.
  induction frequencies as [|fv rest IH]; intros result;
    cbn [most_conserved_loop map].
  - now rewrite app_nil_r.
  - rewrite IH. now rewrite <- app_assoc.
Qed.

Lemma map_drop_gaps_wf {B} (k : dict -> B) (frequencies : list dict) :
  Forall dict_wf frequencies ->
  map (fun fv => k (drop_gaps dtype fv)) frequencies
  = map (fun fv => k (without_gaps dtype fv)) frequencies.
Proof.
  intros Hwf. apply map_ext_in. intros fv Hin.
  rewrite drop_gaps_without_gaps; [reflexivity|].
  now apply (proj1 (Forall_forall _ _) Hwf).
Qed.

(** [_most_conserved] in one equation: what it does to the vectors of its
    caller and what it returns. *)
Lemma most_conserved_run (frequencies : list dict) :
  Forall dict_wf frequencies ->
  _most_conserved dtype "ignore" frequencies
  = (map (without_gaps dtype) frequencies,
     Ok (map (fun fv => conserved_fraction (without_gaps dtype fv))
             frequencies)).
Proof.
  intros Hwf. unfold _most_conserved.
  rewrite String.eqb_refl. cbn [negb].
  rewrite most_conserved_loop_map. cbn [app].
  rewrite (map_drop_gaps_wf conserved_fraction) by exact Hwf.
  rewrite (map_drop_gaps_wf (fun d => d)) by exact Hwf.
  reflexivity.
Qed.

Lemma conservation_mask_run (frequencies : list dict) (min_conservation : Q) :
  Forall dict_wf frequencies ->
  _compute_conservation_mask dtype min_conservation frequencies
  = (map (without_gaps dtype) frequencies,
     Ok (map (fun fv =>
                Np.ge (conserved_fraction (without_gaps dtype fv))
                      min_conservation)
             frequencies)).
Proof.
  intros Hwf. unfold _compute_conservation_mask.
  rewrite (bind_ok _ _ _ _ _ (most_conserved_run frequencies Hwf)).
  unfold ret. now rewrite map_map.
Qed.

(** *** The gap frequency *)

Lemma dict_get_absent (g : ascii) (d : dict) :
  ~ In g (dict_keys d) -> dict_get g d 0 = 0%Q.
Proof.
  induction d as [|[k v] d IH]; intros Hnot; cbn; [reflexivity|].
  destruct (Ascii.eqb_spec g k) as [->|_].
  - exfalso; apply Hnot; now left.
  - apply IH. intros Hin; apply Hnot; now right.
Qed.

(** Adding one character [g] to a set [G] of characters adds the entry of
    [g] to the sum of the entries keyed by [G]. *)
Lemma sum_entries_add (g : ascii) (G : list ascii) (d : dict) :
  ~ In g G -> dict_wf d ->
  Np.sum (dict_values
            (filter (fun kv => existsb (Ascii.eqb (fst kv)) (g :: G)) d))
  == dict_get g d 0
     + Np.sum (dict_values
                 (filter (fun kv => existsb (Ascii.eqb (fst kv)) G) d)).
Proof.
  intros HgG. unfold dict_wf, dict_values.
  induction d as [|[k v] d IH]; intros Hwf.
  - cbn. reflexivity.
  - inversion Hwf as [|? ? Hk Hd]; subst. specialize (IH Hd).
    cbn [filter existsb fst dict_get] in *.
    rewrite (Ascii.eqb_sym g k).
    destruct (Ascii.eqb_spec k g) as [->|Hne]; cbn [orb].
    + assert (E : existsb (Ascii.eqb g) G = false).
      { apply not_true_is_false. intros HE.
        apply existsb_exists in HE as [x [Hx He]].
        apply Ascii.eqb_eq in He. now subst. }
      rewrite E. cbn [map snd] in *.
      rewrite sum_cons, IH, (dict_get_absent g d Hk). ring.
    + destruct (existsb (Ascii.eqb k) G); cbn [map snd] in *.
      * rewrite !sum_cons, IH. ring.
      * exact IH.
Qed.

(** The sum the gap mask takes over the gap characters is the sum of the
    frequencies of the gap characters present in the column. *)
Lemma gap_frequency_sum_entries (f : dict) :
  NoDup (gap_chars dtype) -> dict_wf f ->
  gap_frequency_sum dtype f == Np.sum (dict_values (gap_entries dtype f)).
Proof.
  unfold gap_frequency_sum, gap_entries, is_gap.
  intros HG Hwf.
  induction HG as [|g G Hg _ IH]. 
  - cbn [map existsb]. rewrite sum_nil.
    replace (filter (fun _ => false) f) with (@nil (ascii * Q)); [reflexivity|].
    clear. induction f as [|kv f IH]; [reflexivity|exact IH].
  - cbn [map]. rewrite sum_cons, IH.
    symmetry. now apply sum_entries_add.
Qed.

End DropGaps.

(** ** Columns of an alignment *)

Section Columns.

Lemma select_map {A B} (f : A -> B) (l : list A) :
  forall m, select (map f l) m = map f (select l m).
Proof.
  induction l as [|x l IH]; intros [|b m]; cbn [map select]; try reflexivity.
  destruct b; cbn [map]; now rewrite IH.
Qed.

Lemma select_length {A} (l : list A) :
  forall m, List.length l = List.length m ->
    List.length (select l m) = count m.
Proof.
  unfold count.
  induction l as [|x l IH]; intros [|b m] Hlen; cbn in Hlen |- *;
    try reflexivity; try discriminate.
  destruct b; cbn [List.length]; rewrite IH by lia; reflexivity.
Qed.

Lemma select_all {A} (l : list A) :
  select l (repeat true (List.length l)) = l.
Proof. induction l as [|x l IH]; cbn; [reflexivity|now rewrite IH]. Qed.

Lemma select_In {A} (l : list A) :
  forall m x, In x (select l m) -> In x l.
Proof.
  induction l as [|y l IH]; intros [|b m] x Hin; cbn in Hin;
    try contradiction.
  destruct b; [destruct Hin as [->|Hin]|]; [now left| |]; right; eauto.
Qed.

Lemma mask_and_length (x : list bool) :
  forall y, List.length x = List.length y ->
    List.length (mask_and x y) = List.length x.
Proof.
  induction x as [|b x IH]; intros [|c y] Hlen; cbn in Hlen |- *;
    try reflexivity; try discriminate.
  now rewrite IH by lia.
Qed.

(** Cut down by their own conjunction, two masks are true throughout. *)
Lemma mask_and_select (x : list bool) :
  forall y,
    mask_and (select x (mask_and x y)) (select y (mask_and x y))
    = repeat true (count (mask_and x y)).
Proof.
  unfold count.
  induction x as [|b x IH]; intros [|c y]; cbn [mask_and select];
    try reflexivity.
  destruct b, c; cbn [andb filter List.length repeat mask_and];
    now rewrite IH.
Qed.

Lemma nth_columns (n : nat) :
  forall rows : list (list ascii),
    map (fun i => map (fun r => nth i r "000"%char) rows) (seq 0 n)
    = columns_of n rows.
Proof.
  induction n as [|n IH]; intros rows; [reflexivity|].
  cbn [seq map columns_of]. f_equal.
  - apply map_ext. now intros [|c r].
  - rewrite <- seq_shift, map_map, <- IH.
    apply map_ext. intros i. rewrite map_map.
    apply map_ext. intros [|c r]; [now destruct i|reflexivity].
Qed.

Lemma iter_positions_columns (a : TabularMSA) :
  iter_positions a
  = columns_of (shape_position a) (map seq_chars (msa_seqs a)).
Proof.
  unfold iter_positions, column. rewrite <- nth_columns.
  apply map_ext. intros i. now rewrite map_map.
Qed.

(** Selecting columns of every row, then reading the table by columns, is
    reading it by columns and selecting. *)
Lemma columns_select (m : list bool) :
  forall rows : list (list ascii),
    Forall (fun r => List.length r = List.length m) rows ->
    columns_of (count m) (map (fun r => select r m) rows)
    = select (columns_of (List.length m) rows) m.
Proof.
  unfold count.
  induction m as [|b m IH]; intros rows Hrows; [reflexivity|].
  assert (Htl : Forall (fun r => List.length r = List.length m)
                       (map (@tl ascii) rows)).
  { apply Forall_forall. intros r Hin.
    apply in_map_iff in Hin as [r' [<- Hin]].
    apply (proj1 (Forall_forall _ _) Hrows) in Hin.
    destruct r'; cbn in Hin |- *; [discriminate|lia]. }
  assert (Hsel : forall r, In r rows ->
            select r (b :: m)
            = if b then hd "000"%char r :: select (tl r) m
              else select (tl r) m).
  { intros r Hin. apply (proj1 (Forall_forall _ _) Hrows) in Hin.
    destruct r; [discriminate|reflexivity]. }
  cbn [List.length columns_of select].
  rewrite (map_ext_in _ _ rows Hsel).
  destruct b; cbn [filter List.length columns_of].
  - rewrite !map_map. cbn [hd tl]. f_equal.
    rewrite <- (IH _ Htl). now rewrite map_map.
  - rewrite <- (IH _ Htl). now rewrite map_map.
Qed.

Lemma frequencies_apply_mask (a : TabularMSA) (m : list bool) :
  msa_wf a -> shape_position a <> O ->
  List.length m = shape_position a ->
  shape_position (_apply_mask a m) = count m
  /\ _compute_frequencies (_apply_mask a m)
     = select (_compute_frequencies a) m.
Proof.
  intros [Hrows _] Hpos Hlen.
  assert (Hshape : shape_position (_apply_mask a m) = count m).
  { unfold shape_position in *. cbn [_apply_mask msa_seqs].
    destruct (msa_seqs a) as [|s rows]; [contradiction|].
    cbn [map seq_with_chars seq_chars]. apply select_length. lia. }
  split; [exact Hshape|].
  unfold _compute_frequencies.
  rewrite !iter_positions_columns, Hshape, select_map.
  f_equal. cbn [_apply_mask msa_seqs].
  rewrite map_map. cbn [seq_with_chars seq_chars].
  rewrite <- Hlen, <- columns_select.
  - now rewrite map_map.
  - apply Forall_forall. intros r Hin.
    apply in_map_iff in Hin as [s [<- Hin]].
    rewrite Hlen. now apply (proj1 (Forall_forall _ _) Hrows).
Qed.

(** Keeping every column gives the alignment back. *)
Lemma apply_mask_all (a : TabularMSA) (n : nat) :
  Forall (fun s => List.length (seq_chars s) = n) (msa_seqs a) ->
  _apply_mask a (repeat true n) = a.
Proof.
  intros Hrows. destruct a as [rows index dtype].
  unfold _apply_mask; cbn [msa_seqs msa_index msa_dtype] in *. f_equal.
  rewrite <- (map_id rows) at 2. apply map_ext_in. intros s Hin.
  apply (proj1 (Forall_forall _ _) Hrows) in Hin. subst n.
  rewrite select_all. now destruct s.
Qed.

End Columns.

(** ** Counting the characters of a column *)

Section Frequencies.

Local Open Scope Q_scope.

Lemma list_sum_map_add {A} (f g : A -> nat) (l : list A) :
  list_sum (map (fun x => (f x + g x)%nat) l)
  = (list_sum (map f l) + list_sum (map g l))%nat.
Proof.
  unfold list_sum.
  induction l as [|x l IH]; cbn [map fold_right]; [reflexivity|rewrite IH; lia].
Qed.

(** Exactly one of the 256 character codes is the code of a character. *)
Lemma one_code_per_char (c : ascii) :
  list_sum (map (fun code => if ascii_dec c (ascii_of_nat code) then 1 else 0)%nat
                (seq 0 256))
  = 1%nat.
Proof.
  destruct c as [[] [] [] [] [] [] [] []]; vm_compute; reflexivity.
Qed.

Lemma bincount_total (chars : list ascii) :
  list_sum (map (fun code => count_occ ascii_dec chars (ascii_of_nat code))
                (seq 0 256))
  = List.length chars.
Proof.
  induction chars as [|c chars IH].
  - cbn [count_occ List.length]. induction (seq 0 256); cbn; auto.
  - assert (E : list_sum
                  (map (fun code =>
                          count_occ ascii_dec (c :: chars) (ascii_of_nat code))
                       (seq 0 256))
                = (list_sum
                     (map (fun code =>
                             if ascii_dec c (ascii_of_nat code) then 1 else 0)
                          (seq 0 256))
                   + list_sum
                       (map (fun code =>
                               count_occ ascii_dec chars (ascii_of_nat code))
                            (seq 0 256)))%nat).
    { rewrite <- list_sum_map_add. f_equal. apply map_ext. intros code.
      cbn [count_occ]. now destruct (ascii_dec c (ascii_of_nat code)). }
    rewrite E, one_code_per_char, IH. reflexivity.
Qed.

Lemma sum_app (l1 l2 : list Q) : Np.sum (l1 ++ l2) == Np.sum l1 + Np.sum l2.
Proof.
  induction l1 as [|x l1 IH]; cbn [app].
  - rewrite sum_nil. ring.
  - rewrite !sum_cons, IH. ring.
Qed.

(** The counts of a frequency vector add up to the number of characters
    counted. *)
Lemma frequencies_total (chars : list ascii) :
  Np.sum (dict_values (frequencies chars))
  == inject_Z (Z.of_nat (List.length chars)).
Proof.
  rewrite <- bincount_total. unfold frequencies, dict_values, list_sum.
  induction (seq 0 256) as [|code codes IH]; [reflexivity|].
  cbn [flat_map map fold_right]. rewrite map_app, sum_app, IH.
  rewrite Nat2Z.inj_add, inject_Z_plus.
  apply Qplus_comp; [|reflexivity].
  destruct (Nat.eqb_spec (count_occ ascii_dec chars (ascii_of_nat code)) 0)
    as [->|_]; cbn [map snd]; [reflexivity|].
  rewrite sum_cons, sum_nil. ring.
Qed.

Lemma frequencies_total_column (a : TabularMSA) (f : dict) :
  In f (_compute_frequencies a) ->
  Np.sum (dict_values f) == inject_Z (Z.of_nat (shape_sequence a)).
Proof.
  unfold _compute_frequencies, iter_positions. rewrite map_map.
  intros Hin. apply in_map_iff in Hin as [i [<- _]].
  rewrite frequencies_total. unfold column, shape_sequence.
  now rewrite length_map.
Qed.

End Frequencies.

(** ** [mask] *)

Section Mask.

Lemma compute_frequencies_length (a : TabularMSA) :
  List.length (_compute_frequencies a) = shape_position a.
Proof.
  unfold _compute_frequencies, iter_positions.
  now rewrite !length_map, length_seq.
Qed.

(** When every column holds the same number of characters, the gap mask
    applies one test to every column. *)
Lemma gap_mask_uniform
    (frequencies : list dict) (dtype : sequence_dtype) (g N : Q) :
  frequencies <> [] ->
  (forall f, In f frequencies -> (Np.sum (dict_values f) == N)%Q) ->
  _compute_gap_mask frequencies dtype g
  = Ok (map (gap_bit dtype g N) frequencies).
Proof.
  intros Hne Hsum. destruct frequencies as [|first rest]; [contradiction|].
  unfold _compute_gap_mask. f_equal. rewrite map_map.
  apply map_ext_in. intros f _. unfold gap_bit.
  apply le_true_divide_Qeq; [reflexivity|].
  apply Hsum. now left.
Qed.

Lemma conservation_mask_bits
    (dtype : sequence_dtype) (c : Q) (frequencies : list dict) :
  snd (_compute_conservation_mask dtype c frequencies)
  = Ok (map (conservation_bit dtype c) frequencies).
Proof.
  unfold _compute_conservation_mask, bind, _most_conserved, ret.
  rewrite String.eqb_refl. cbn [negb].
  rewrite most_conserved_loop_map. cbn [app snd].
  now rewrite map_map.
Qed.

Lemma mask_run (g c : Q) (a : TabularMSA) :
  mask g c a = (a, mask_outcome g c a).
Proof.
  unfold mask, mask_outcome.
  destruct (out_of_unit_interval g); [reflexivity|].
  destruct (out_of_unit_interval c); [reflexivity|].
  unfold bind at 1, get.
  destruct (Nat.eqb_spec (shape_position a) 0) as [|Hpos]; [reflexivity|].
  cbv zeta. unfold bind at 1, lift.
  rewrite (gap_mask_uniform _ _ _ (inject_Z (Z.of_nat (shape_sequence a)))).
  - unfold bind at 1, on_local.
    rewrite conservation_mask_bits.
    fold (gap_mask_of a g). fold (conservation_mask_of a c).
    unfold passed.
    destruct (shape_position _ =? 0)%nat; reflexivity.
  - intros E. apply Hpos. now rewrite <- compute_frequencies_length, E.
  - apply frequencies_total_column.
Qed.

End Mask.


(** The percentage of 23 columns out of 160 is printed from the binary64
    product 14.374999999999998, not from the exact 14.375. *)
Example percent_of_binary64_product :
  Fmt.percent (Np.true_divide 23 160) = "14.37%"
  /\ Fmt.percent (Np.true_divide 1 3) = "33.33%"
  /\ Fmt.percent (Np.true_divide 1 8) = "12.50%".
Proof. repeat split; vm_compute; reflexivity. Qed.



(** C8.  When [mask] succeeds on an alignment and returns B, it succeeds
    on B with the same thresholds and returns B. *)
Theorem mask_idempotent (a a' : TabularMSA) (g c : Q) (r : returned) :
  msa_wf a ->
  mask g c a = (a', Ok r) ->
  let b := value_of a' r in
  mask g c b = (b, Ok (New b)).
Proof.
  intros Hwf Hrun b. subst b.
  rewrite mask_run in Hrun. injection Hrun as <- Hout.
  unfold mask_outcome in Hout.
  destruct (out_of_unit_interval g) eqn:Hg; [discriminate|].
  destruct (out_of_unit_interval c) eqn:Hc; [discriminate|].
  destruct (Nat.eqb_spec (shape_position a) 0) as [|Hpos]; [discriminate|].
  cbv zeta in Hout.
  set (m := mask_and (gap_mask_of a g) (conservation_mask_of a c)) in *.
  destruct (Nat.eqb_spec (shape_position (_apply_mask a m)) 0) as [|Hpos'];
    [discriminate|].
  injection Hout as <-. cbn [value_of].
  assert (Hlen : List.length m = shape_position a).
  { unfold m, gap_mask_of, conservation_mask_of.
    rewrite mask_and_length; rewrite !length_map;
      [apply compute_frequencies_length|reflexivity]. }
  destruct (frequencies_apply_mask a m Hwf Hpos Hlen) as [Hshape Hfreq].
  assert (Hgap : gap_mask_of (_apply_mask a m) g
                 = select (gap_mask_of a g) m).
  { unfold gap_mask_of. rewrite Hfreq, select_map.
    unfold shape_sequence. cbn [_apply_mask msa_seqs msa_dtype].
    now rewrite length_map. }
  assert (Hcons : conservation_mask_of (_apply_mask a m) c
                  = select (conservation_mask_of a c) m).
  { unfold conservation_mask_of. rewrite Hfreq, select_map. reflexivity. }
  rewrite mask_run. f_equal. unfold mask_outcome. rewrite Hg, Hc.
  destruct (Nat.eqb_spec (shape_position (_apply_mask a m)) 0) as [|_];
    [contradiction|].
  assert (Hall : mask_and (select (gap_mask_of a g) m)
                          (select (conservation_mask_of a c) m)
                 = repeat true (count m))
    by (unfold m; apply mask_and_select).
  cbv zeta. rewrite Hgap, Hcons, Hall.
  rewrite (apply_mask_all (_apply_mask a m) (count m)).
  - destruct (Nat.eqb_spec (shape_position (_apply_mask a m)) 0) as [|_];
      [contradiction|reflexivity].
  - cbn [_apply_mask msa_seqs]. apply Forall_forall. intros s Hin.
    apply in_map_iff in Hin as [s0 [<- Hin]].
    cbn [seq_with_chars seq_chars]. apply select_length.
    rewrite Hlen. now apply (proj1 (Forall_forall _ _) (proj1 Hwf)).
Qed.

Lemma mask_idempotent_witness :
  exists b,
    mask (5 # 100) (30 # 100) aln_basic = (aln_basic, Ok (New b))
    /\ chars_of b = [("seq1", "GA"); ("seq2", "GA"); ("seq3", "GC")]
    /\ mask (5 # 100) (30 # 100) b = (b, Ok (New b)).
Proof.
  eexists. split; [vm_compute; reflexivity|]. split; [reflexivity|].
  refine (mask_idempotent aln_basic aln_basic (5 # 100) (30 # 100) (New _)
            _ _).
  - split; [repeat constructor|reflexivity].
  - vm_compute; reflexivity.
Defined.

(** ** [filter_seqs] *)

Section FilterSeqs.

Variables (max_gap_frequency max_n_frequency : Q).
Variables (min_length : Z) (max_length : option Z).

Let keep := passes max_gap_frequency max_n_frequency min_length max_length.
Let loop :=
  filter_seqs_loop max_gap_frequency max_n_frequency min_length max_length.

Lemma loop_app (xs ys : list Sequence) (result : Series) :
  loop (xs ++ ys) result = loop ys (loop xs result).
Proof. apply fold_left_app. Qed.

(** Only the sequences that pass the three tests touch the result. *)
Lemma loop_filter (seqs : list Sequence) :
  forall result,
    loop seqs result
    = fold_left (fun r s => series_set (seq_id s) s r) (filter keep seqs) result.
Proof.
  induction seqs as [|s seqs IH]; intros result; [reflexivity|].
  unfold loop, filter_seqs_loop in *. cbn [fold_left filter].
  fold keep. destruct (keep s); cbn [fold_left]; apply IH.
Qed.


Lemma keys_set (key : string) (v : Sequence) (s : Series) :
  map fst (series_set key v s)
  = if existsb (String.eqb key) (map fst s) then map fst s
    else (map fst s ++ [key])%list.
Proof.
  induction s as [|[k' v'] s IH]; cbn [series_set map fst existsb app];
    [reflexivity|].
  destruct (String.eqb_spec key k') as [<-|_]; cbn [map fst orb];
    [reflexivity|].
  rewrite IH. now destruct (existsb (String.eqb key) (map fst s)).
Qed.




Lemma set_new_key (key : string) (v : Sequence) (s : Series) :
  ~ In key (map fst s) -> series_set key v s = (s ++ [(key, v)])%list.
Proof.
  induction s as [|[k' v'] s IH]; intros Hnot; cbn [series_set app];
    [reflexivity|].
  destruct (String.eqb_spec key k') as [->|_].
  - exfalso; apply Hnot; now left.
  - rewrite IH; [reflexivity|]. intros Hin; apply Hnot; now right.
Qed.

Lemma fold_set_distinct (l : list Sequence) :
  forall result,
    NoDup (map fst result ++ map seq_id l) ->
    fold_left (fun r s => series_set (seq_id s) s r) l result
    = (result ++ map (fun s => (seq_id s, s)) l)%list.
Proof.
  induction l as [|x l IH]; intros result Hnd; cbn [fold_left map].
  - now rewrite app_nil_r.
  - cbn [map] in Hnd.
    rewrite set_new_key.
    + rewrite IH; [now rewrite <- app_assoc|].
      rewrite map_app, <- app_assoc. exact Hnd.
    + intros Hin. apply NoDup_remove_2 in Hnd. apply Hnd.
      apply in_or_app. now left.
Qed.

(** The three tests, read off the loop body. *)
Lemma passes_tests (seq : Sequence) :
  let seq_len := Z.of_nat (List.length (seq_chars seq)) in
  keep seq
  = (min_length <=? seq_len)
    && match max_length with
       | Some m => seq_len <=? m
       | None => true
       end
    && negb (Np.gt (Np.true_divide (inject_Z (Np.count_true (gaps seq)))
                                   (inject_Z seq_len))
                   max_gap_frequency)
    && negb (Np.gt (relative_frequency "N" (degap seq)) max_n_frequency).
Proof.
  intros seq_len. unfold keep, passes. fold seq_len.
  rewrite (Z.leb_antisym seq_len min_length).
  destruct (seq_len <? min_length); cbn [negb orb andb]; [reflexivity|].
  destruct max_length as [m|]; cbn [andb].
  - rewrite (Z.leb_antisym m seq_len).
    destruct (m <? seq_len); cbn [negb andb]; [reflexivity|].
    destruct (Np.gt _ max_gap_frequency); cbn [negb andb]; [reflexivity|].
    now destruct (Np.gt _ max_n_frequency).
  - destruct (Np.gt _ max_gap_frequency); cbn [negb andb]; [reflexivity|].
    now destruct (Np.gt _ max_n_frequency).
Qed.

End FilterSeqs.




(** C10.  On a sequence of length zero the gap-frequency division is 0/0,
    which numpy evaluates to [nan] without raising, and no comparison with
    [nan] skips the sequence: whether it passes is decided by the two
    length bounds alone, and wherever it stands in the stream the loop
    goes on from the result with or without it accordingly. *)
Theorem filter_seqs_zero_length
    (before after : list Sequence) (id description : string)
    (max_gap_frequency max_n_frequency : Q)
    (min_length : Z) (max_length : option Z) :
  let seq :=
    {| seq_chars := []; seq_id := id; seq_description := description |} in
  let length_ok :=
    negb ((0 <? min_length)
          || match max_length with
             | Some m => m <? 0
             | None => false
             end) in
  let so_far :=
    filter_seqs before max_gap_frequency max_n_frequency min_length max_length
  in
  Np.true_divide (inject_Z (Np.count_true (gaps seq)))
                 (inject_Z (Z.of_nat (List.length (seq_chars seq))))
  = Np.NaN
  /\ Np.gt Np.NaN max_gap_frequency = false
  /\ passes max_gap_frequency max_n_frequency min_length max_length seq
     = length_ok
  /\ filter_seqs (before ++ seq :: after)
       max_gap_frequency max_n_frequency min_length max_length
     = filter_seqs_loop max_gap_frequency max_n_frequency min_length max_length
         after
         (if length_ok then series_set id seq so_far else so_far).
Proof.
  intros seq length_ok so_far.
  assert (Hpass : passes max_gap_frequency max_n_frequency min_length
                         max_length seq = length_ok).
  { unfold passes, length_ok. cbn [seq seq_chars List.length Z.of_nat].
    now destruct (_ || _). }
  split; [reflexivity|]. split; [reflexivity|]. split; [exact Hpass|].
  unfold filter_seqs. rewrite loop_app.
  unfold filter_seqs_loop at 1. cbn [fold_left].
  rewrite Hpass. reflexivity.
Qed.

(** ** What the operations do to their inputs *)

Section Frame.

Lemma readonly_ret {S A} (a : A) : readonly (@ret S A a).
Proof. now intros s. Qed.

Lemma readonly_raise {S A} (e : exn) : readonly (@raise S A e).
Proof. now intros s. Qed.

Lemma readonly_get {S} : readonly (@get S).
Proof. now intros s. Qed.

Lemma readonly_lift {S A} (r : result A) : readonly (@lift S A r).
Proof. now intros s. Qed.

Lemma readonly_on_local {S L A} (l : L) (m : Py L A) :
  readonly (@on_local S L A l m).
Proof. now intros s. Qed.

Lemma readonly_loc (l : label) : readonly (loc l).
Proof.
  intros a. unfold loc.
  destruct (filter _ _) as [|[? ?] [|? ?]]; reflexivity.
Qed.

Lemma readonly_bind {S A B} (m : Py S A) (k : A -> Py S B) :
  readonly m -> (forall x, readonly (k x)) -> readonly (bind m k).
Proof.
  intros Hm Hk s. unfold bind. specialize (Hm s).
  destruct (m s) as [s' [x|e]]; cbn [fst] in Hm; subst s'; [apply Hk|reflexivity].
Qed.

Lemma readonly_except_KeyError {S A} (m : Py S A) (e : exn) :
  readonly m -> readonly (except_KeyError m e).
Proof.
  intros Hm s. unfold except_KeyError. specialize (Hm s).
  destruct (m s) as [s' [x|[]]]; exact Hm.
Qed.

Ltac readonly_steps :=
  repeat (intros; cbv zeta;
          first [ apply readonly_ret | apply readonly_raise
                | apply readonly_get | apply readonly_lift
                | apply readonly_loc | apply readonly_on_local
                | apply readonly_except_KeyError | apply readonly_bind
                | match goal with
                  | |- readonly (if ?b then _ else _) => destruct b
                  end ]).

(** [mask] calls nothing that writes to its alignment. *)
Lemma mask_readonly (g c : Q) : readonly (mask g c).
Proof. unfold mask. readonly_steps. Qed.

(** The alignment of the caller after [filter_positions]: untouched when
    the first check fails, re-keyed by identifier otherwise. *)
Lemma filter_positions_input_after
    (reference_id : string) (start end_ : Z) (a : TabularMSA) :
  fst (filter_positions reference_id start end_ a)
  = if end_ <? start - 1 then a else reassign_index_id a.
Proof.
  unfold filter_positions.
  destruct (end_ <? start - 1); [reflexivity|].
  unfold bind at 1, modify.
  match goal with
  | |- fst (?m _) = _ => enough (H : readonly m) by apply H
  end.
  readonly_steps.
Qed.

Lemma In_series_set (k key : string) (s v : Sequence) (r : Series) :
  In (k, s) (series_set key v r) -> (k, s) = (key, v) \/ In (k, s) r.
Proof.
  induction r as [|[k' v'] r IH]; cbn [series_set].
  - intros [H|[]]; left; now symmetry.
  - destruct (key =? k')%string.
    + intros [H|H]; [left; now symmetry|right; now right].
    + intros [H|H]; [right; now left|].
      destruct (IH H) as [E|Hin]; [now left|right; now right].
Qed.

(** Every entry of the result is a sequence of the stream, as it came,
    under its own identifier. *)
Lemma filter_seqs_loop_entries
    (g n : Q) (minl : Z) (maxl : option Z) (seqs : list Sequence) :
  forall (result : Series) (k : string) (s : Sequence),
    In (k, s) (filter_seqs_loop g n minl maxl seqs result) ->
    In (k, s) result \/ (k = seq_id s /\ In s seqs).
Proof.
  unfold filter_seqs_loop.
  induction seqs as [|x seqs IH]; intros result k s Hin; cbn [fold_left] in Hin;
    [now left|].
  apply IH in Hin as [Hin|[Hk Hin]].
  - destruct (passes g n minl maxl x); [|now left].
    apply In_series_set in Hin as [E|Hin]; [|now left].
    injection E as -> ->. right. split; [reflexivity|now left].
  - right. split; [exact Hk|now right].
Qed.

(** One round of the loop leaves the object as it was and stores it, or
    not, as the three tests decide. *)
Lemma filter_seqs_body_run
    (g n : Q) (minl : Z) (maxl : option Z) (so_far : Series) (seq : Sequence) :
  filter_seqs_body g n minl maxl so_far seq
  = (seq,
     Ok (if passes g n minl maxl seq
         then series_set (seq_id seq) seq so_far
         else so_far)).
Proof.
  unfold filter_seqs_body, passes, bind, len_, gaps_, degap_, metadata_id,
    get, ret.
  destruct (_ || _); [reflexivity|]. cbv zeta.
  destruct (Np.gt _ g); [reflexivity|].
  destruct (Np.gt _ n); reflexivity.
Qed.

Lemma filter_seqs_objects_run
    (g n : Q) (minl : Z) (maxl : option Z) (seqs : list Sequence) :
  forall so_far,
    filter_seqs_objects g n minl maxl seqs so_far
    = (seqs, Ok (filter_seqs_loop g n minl maxl seqs so_far)).
Proof.
  induction seqs as [|seq rest IH]; intros so_far; [reflexivity|].
  cbn [filter_seqs_objects]. rewrite filter_seqs_body_run, IH.
  reflexivity.
Qed.

End Frame.

(** C2 (as amended).  [mask] and [filter_seqs] do not mutate their
    input: the alignment given to [mask], and every sequence of the
    stream given to [filter_seqs], is after the call what it was before,
    and what is returned is an alignment, or a series, of the function's
    own making.  [filter_positions] leaves the sequences and the class of
    the alignment it is given as they were, but unless the
    end-versus-start check fails it replaces the index of that alignment,
    in place, by the identifiers of the sequences; when [end] is the
    ungapped length of the reference, what it returns is an alignment of
    its own making. *)
Theorem inputs_after_the_call :
  (forall g c a,
      fst (mask g c a) = a
      /\ forall r, snd (mask g c a) = Ok r -> exists b, r = New b)
  /\ (forall reference_id start end_ a,
         let a' := fst (filter_positions reference_id start end_ a) in
         msa_seqs a' = msa_seqs a
         /\ msa_dtype a' = msa_dtype a
         /\ a' = if end_ <? start - 1 then a else reassign_index_id a)
  /\ (forall reference_id start end_ a s r,
         rows_with_id a reference_id = [s] ->
         end_ = ungapped_length (msa_dtype a) s ->
         snd (filter_positions reference_id start end_ a) = Ok r ->
         exists column, r = New (slice_from (reassign_index_id a) column))
  /\ (forall seqs g n minl maxl,
         filter_seqs_objects g n minl maxl seqs []
         = (seqs, Ok (filter_seqs seqs g n minl maxl))).
Proof.
  split; [|split; [|split]].
  - intros g c a. split; [apply mask_readonly|].
    rewrite mask_run. cbn [snd]. unfold mask_outcome. intros r Hr.
    repeat (cbv zeta in Hr;
            match type of Hr with
            | (if ?x then _ else _) = _ => destruct x
            end); try discriminate.
    injection Hr as <-. now eexists.
  - intros reference_id start end_ a a'. subst a'.
    rewrite filter_positions_input_after.
    destruct (end_ <? start - 1); repeat split; reflexivity.
  - intros reference_id start end_ a s r Hrow Hend Hr.
    destruct (end_ <? start - 1) eqn:Hcheck.
    + unfold filter_positions in Hr. rewrite Hcheck in Hr. discriminate.
    + rewrite (filter_positions_unique_reference _ _ _ _ _ Hrow Hcheck) in Hr.
      cbv zeta in Hr. fold (ungapped_length (msa_dtype a) s) in Hr.
      rewrite <- Hend, Z.ltb_irrefl, Z.eqb_refl in Hr.
      destruct (argwhere_first _ _ _) as [column|]; [|discriminate].
      injection Hr as <-. now exists column.
  - intros seqs g n minl maxl. apply filter_seqs_objects_run.
Qed.

Lemma inputs_after_the_call_witness :
  exists column,
    snd (filter_positions "s3" 1 6 aln_full_reference)
    = Ok (New (slice_from (reassign_index_id aln_full_reference) column)).
Proof.
  destruct inputs_after_the_call as [_ [_ [Hnew _]]].
  destruct (Hnew "s3" 1 6 aln_full_reference (dna "s3" "---GTTATA")
              (New (slice_from (reassign_index_id aln_full_reference) 3))
              eq_refl eq_refl eq_refl) as [column Hcol].
  exists column. now rewrite <- Hcol.
Defined.

(** C2, as stated, fails for [filter_positions]: the alignment of the
    test suite is keyed 0, 1, 2 before the call with reference 's1',
    start 1 and end 7, and by 's1', 's2', 's3' after it. *)
Lemma filter_positions_rekeys_its_input :
  msa_index aln_full_reference = [IntLabel 0; IntLabel 1; IntLabel 2]
  /\ msa_index (fst (filter_positions "s1" 1 7 aln_full_reference))
     = [StrLabel "s1"; StrLabel "s2"; StrLabel "s3"]
  /\ fst (filter_positions "s1" 1 7 aln_full_reference) <> aln_full_reference.
Proof.
  split; [reflexivity|]. split; [reflexivity|].
  intros E. apply (f_equal msa_index) in E. discriminate E.
Qed.

(** ** Further properties of [filter_positions] and [mask] *)

Section ReferenceArray.

(** Every ungapped index below the ungapped length is in the reference
    array. *)
Lemma reference_array_complete (non_gaps : list bool) :
  forall next v,
    next <= v < next + Np.count_true non_gaps ->
    In v (reference_array_from next non_gaps).
Proof.
  induction non_gaps as [|b rest IH]; intros next v Hv.
  - unfold Np.count_true in Hv; cbn in Hv; lia.
  - rewrite count_true_cons in Hv.
    destruct b; cbn [reference_array_from].
    + destruct (Z.eq_dec v next) as [->|Hne]; [now left|].
      right. apply IH. lia.
    + right. apply IH. lia.
Qed.

(** The column found for an ungapped index holds a residue of the
    reference and has exactly that many residues before it. *)
Lemma argwhere_first_column (non_gaps : list bool) :
  forall next v i j,
    0 <= next <= v ->
    argwhere_first (reference_array_from next non_gaps) v i = Ok j ->
    (i <= j)%nat
    /\ nth (j - i) non_gaps false = true
    /\ next + Np.count_true (firstn (j - i) non_gaps) = v.
Proof.
  induction non_gaps as [|b rest IH]; intros next v i j Hv Hfind;
    [discriminate|].
  destruct b; cbn [reference_array_from argwhere_first] in Hfind.
  - destruct (Z.eqb_spec next v) as [->|Hne].
    + injection Hfind as <-. rewrite Nat.sub_diag. cbn.
      repeat split; [lia|]. unfold Np.count_true; cbn; lia.
    + apply IH in Hfind as [Hij [Hnth Hcount]]; [|lia].
      replace (j - i)%nat with (S (j - S i)) by lia.
      cbn [nth firstn]. rewrite count_true_cons.
      repeat split; [lia|exact Hnth|lia].
  - destruct (Z.eqb_spec (-1) v) as [<-|Hne]; [lia|].
    apply IH in Hfind as [Hij [Hnth Hcount]]; [|lia].
    replace (j - i)%nat with (S (j - S i)) by lia.
    cbn [nth firstn]. rewrite count_true_cons.
    repeat split; [lia|exact Hnth|lia].
Qed.

End ReferenceArray.

(** X1.  Whenever [end] is below the converted start, that is
    [end < start - 1], [filter_positions] raises the invalid-argument
    error at once and does not touch the alignment. *)
Theorem filter_positions_end_before_start
    (reference_id : string) (start end_ : Z) (a : TabularMSA) :
  end_ < start - 1 ->
  filter_positions reference_id start end_ a
  = (a, Raise (ValueError "end must be greater than start")).
Proof.
  intros Hlt. unfold filter_positions.
  now rewrite (proj2 (Z.ltb_lt _ _) Hlt).
Qed.

Lemma filter_positions_end_before_start_witness :
  filter_positions "s1" 5 2 aln_full_reference
  = (aln_full_reference, Raise (ValueError "end must be greater than start")).
Proof.
  apply (filter_positions_end_before_start "s1" 5 2 aln_full_reference).
  reflexivity.
Defined.

(** X2.  For a reference carried by one sequence, a start of at least 1
    and an [end] from [start - 1] up to, but below, the ungapped length of
    the reference, [filter_positions] takes no slice at all: it re-keys
    the alignment it is given and hands that same alignment back. *)
Theorem filter_positions_below_length_hands_back_input
    (a : TabularMSA) (reference_id : string) (s : Sequence) (start end_ : Z) :
  rows_with_id a reference_id = [s] ->
  1 <= start ->
  start - 1 <= end_ ->
  end_ < ungapped_length (msa_dtype a) s ->
  filter_positions reference_id start end_ a
  = (reassign_index_id a, Ok TheInput).
Proof.
  intros Hrow Hstart Hle Hend.
  assert (Hcheck : (end_ <? start - 1) = false) by (apply Z.ltb_ge; lia).
  rewrite (filter_positions_unique_reference a reference_id s _ _ Hrow Hcheck).
  cbv zeta. fold (ungapped_length (msa_dtype a) s).
  set (L := ungapped_length (msa_dtype a) s) in *.
  set (non_gaps := map negb (map (is_gap (msa_dtype a)) (seq_chars s))).
  replace (L <? end_) with false by (symmetry; apply Z.ltb_ge; lia).
  destruct (argwhere_first_present (reference_array_from 0 non_gaps)
              (start - 1) 0) as [aln_start ->].
  { apply reference_array_complete.
    change (Np.count_true non_gaps) with L. lia. }
  replace (end_ =? L) with false by (symmetry; apply Z.eqb_neq; lia).
  destruct (argwhere_first_present (reference_array_from 0 non_gaps) end_ 0)
    as [aln_end ->].
  { apply reference_array_complete.
    change (Np.count_true non_gaps) with L. lia. }
  reflexivity.
Qed.

Lemma filter_positions_below_length_witness :
  filter_positions "s1" 2 4 aln_full_reference
  = (reassign_index_id aln_full_reference, Ok TheInput).
Proof.
  apply (filter_positions_below_length_hands_back_input
           aln_full_reference "s1" (dna "s1" "CCA-T-AGA") 2 4);
    [reflexivity|lia|lia|reflexivity].
Defined.

(** X3.  For a reference carried by one sequence of ungapped length L, a
    start between 1 and L and [end] = L, [filter_positions] returns a new
    alignment that starts at the column of the start-th residue of the
    reference and runs to the last column: that column holds a residue of
    the reference and has [start - 1] residues of the reference before
    it; every sequence keeps its identifier and description. *)
Theorem filter_positions_to_the_end
    (a : TabularMSA) (reference_id : string) (s : Sequence) (start : Z) :
  rows_with_id a reference_id = [s] ->
  let non_gaps := map negb (map (is_gap (msa_dtype a)) (seq_chars s)) in
  let L := ungapped_length (msa_dtype a) s in
  1 <= start <= L ->
  exists aln_start,
    filter_positions reference_id start L a
    = (reassign_index_id a,
       Ok (New (slice_from (reassign_index_id a) aln_start)))
    /\ nth aln_start non_gaps false = true
    /\ Np.count_true (firstn aln_start non_gaps) = start - 1
    /\ msa_seqs (slice_from (reassign_index_id a) aln_start)
       = map (fun s => seq_with_chars s (skipn aln_start (seq_chars s)))
             (msa_seqs a).
Proof.
  intros Hrow non_gaps L Hstart.
  assert (Hcheck : (L <? start - 1) = false) by (apply Z.ltb_ge; lia).
  rewrite (filter_positions_unique_reference a reference_id s _ _ Hrow Hcheck).
  cbv zeta. fold (ungapped_length (msa_dtype a) s). fold L. fold non_gaps.
  rewrite Z.ltb_irrefl, Z.eqb_refl.
  destruct (argwhere_first_present (reference_array_from 0 non_gaps)
              (start - 1) 0) as [aln_start Hfind].
  { apply reference_array_complete.
    change (Np.count_true non_gaps) with L. lia. }
  rewrite Hfind. exists aln_start.
  apply argwhere_first_column in Hfind as [_ [Hnth Hcount]]; [|lia].
  rewrite Nat.sub_0_r in Hnth, Hcount.
  repeat split; [exact Hnth|lia].
Qed.

Lemma filter_positions_to_the_end_witness :
  exists aln_start,
    filter_positions "s3" 2 6 aln_full_reference
    = (reassign_index_id aln_full_reference,
       Ok (New (slice_from (reassign_index_id aln_full_reference) aln_start)))
    /\ Np.count_true
         (firstn aln_start
            [false; false; false; true; true; true; true; true; true])
       = 1.
Proof.
  destruct (filter_positions_to_the_end
              aln_full_reference "s3" (dna "s3" "---GTTATA") 2 eq_refl)
    as [aln_start [Hrun [_ [Hcount _]]]]; [cbn; lia|].
  exists aln_start. split; [exact Hrun|exact Hcount].
Defined.



(** X5.  [mask] rejects a threshold outside [0, 1] before it looks at the
    alignment, and within range rejects an alignment without columns
    (no sequences, or sequences of length zero) whatever the thresholds;
    in each case the alignment is left as it was. *)
Theorem mask_rejects_bad_arguments (g c : Q) (a : TabularMSA) :
  ((g < 0 \/ 1 < g)%Q ->
   mask g c a = (a, Raise (ValueError (max_gap_frequency_message g))))
  /\ ((0 <= g <= 1)%Q -> (c < 0 \/ 1 < c)%Q ->
      mask g c a = (a, Raise (ValueError (min_conservation_message c))))
  /\ ((0 <= g <= 1)%Q -> (0 <= c <= 1)%Q ->
      (msa_seqs a = [] \/ shape_position a = O) ->
      mask g c a = (a, Raise (ValueError empty_alignment_message))).
Proof.
  assert (Hout : forall x, (x < 0 \/ 1 < x)%Q -> out_of_unit_interval x = true).
  { intros x Hx. unfold out_of_unit_interval, Np.Qlt_bool.
    apply orb_true_iff.
    destruct Hx as [Hx|Hx]; [left|right]; apply negb_true_iff;
      apply not_true_is_false; rewrite Qle_bool_iff; lra. }
  assert (Hin : forall x, (0 <= x <= 1)%Q -> out_of_unit_interval x = false).
  { intros x [H0 H1]. unfold out_of_unit_interval, Np.Qlt_bool.
    apply orb_false_iff. split; apply negb_false_iff; now apply Qle_bool_iff. }
  rewrite mask_run. unfold mask_outcome. repeat split.
  - intros Hg. now rewrite (Hout g Hg).
  - intros Hg Hc. now rewrite (Hin g Hg), (Hout c Hc).
  - intros Hg Hc Hempty. rewrite (Hin g Hg), (Hin c Hc).
    assert (E : shape_position a = O).
    { destruct Hempty as [E|E]; [|exact E]. unfold shape_position. now rewrite E. }
    now rewrite E.
Qed.

Lemma mask_rejects_bad_arguments_witness :
  mask (11 # 10) (4 # 10) aln_basic
  = (aln_basic, Raise (ValueError "max_gap_frequency out of range [0.0, 1.0]: 1.100000"))
  /\ mask 1 (4 # 10) (new_TabularMSA DNA [])
     = (new_TabularMSA DNA [], Raise (ValueError empty_alignment_message)).
Proof.
  split.
  - rewrite (proj1 (mask_rejects_bad_arguments (11 # 10) (4 # 10) aln_basic));
      [reflexivity|right; reflexivity].
  - apply (proj2 (proj2 (mask_rejects_bad_arguments 1 (4 # 10)
                           (new_TabularMSA DNA [])))).
    + split; discriminate.
    + split; discriminate.
    + now left.
Defined.

(** X6.  [_most_conserved] supports the gap mode 'ignore' only: any other
    mode raises a [ValueError] that names the mode, and the frequency
    vectors are left as they were. *)
Theorem most_conserved_unknown_gap_mode
    (dtype : sequence_dtype) (gap_mode : string) (frequencies : list dict) :
  gap_mode <> "ignore" ->
  _most_conserved dtype gap_mode frequencies
  = (frequencies,
     Raise (ValueError ("Unknown gap_mode: " ++ gap_mode
              ++ ". ignore is currently the only supported gap_mode."))).
Proof.
  intros Hmode. unfold _most_conserved.
  destruct (String.eqb_spec gap_mode "ignore") as [E|_]; [contradiction|].
  reflexivity.
Qed.

Lemma most_conserved_unknown_gap_mode_witness :
  snd (_most_conserved DNA "not-real" [[("A"%char, 1 # 3); ("-"%char, 2 # 3)]%Q])
  = Raise (ValueError
             "Unknown gap_mode: not-real. ignore is currently the only supported gap_mode.").
Proof.
  rewrite (most_conserved_unknown_gap_mode DNA "not-real"); [reflexivity|].
  discriminate.
Defined.

(** ** [filter_positions]: outcomes and the slice it takes *)

Section PositionsMore.

Variable dtype : sequence_dtype.

Lemma count_true_filter {A} (p : A -> bool) (l : list A) :
  Np.count_true (map p l) = Z.of_nat (List.length (filter p l)).
Proof.
  unfold Np.count_true.
  induction l as [|x l IH]; cbn [map filter]; [reflexivity|].
  destruct (p x); cbn [List.length]; lia.
Qed.

(** Filtering what is left after a prefix was dropped drops the filtered
    prefix. *)
Lemma filter_skipn {A} (p : A -> bool) (n : nat) (l : list A) :
  filter p (skipn n l)
  = skipn (List.length (filter p (firstn n l))) (filter p l).
Proof.
  rewrite <- (firstn_skipn n l) at 3.
  rewrite filter_app, skipn_app, Nat.sub_diag, skipn_all. reflexivity.
Qed.

(** The residues of a sequence after its first [column] columns, when
    [k] residues stand in those columns. *)
Lemma residues_skipn (chars : list ascii) (column : nat) (k : Z) :
  Np.count_true (firstn column (map negb (map (is_gap dtype) chars))) = k ->
  residues dtype (skipn column chars)
  = skipn (Z.to_nat k) (residues dtype chars).
Proof.
  intros Hk. unfold residues. rewrite filter_skipn. f_equal.
  rewrite map_map, firstn_map in Hk.
  rewrite (count_true_filter (fun c => negb (is_gap dtype c))) in Hk. lia.
Qed.

(** Looking for the sentinel finds the first gap of the reference. *)
Lemma argwhere_first_sentinel (g : ascii) (post : list ascii) (pre : list ascii) :
  forall next i,
    0 <= next ->
    Forall (fun c => is_gap dtype c = false) pre ->
    is_gap dtype g = true ->
    argwhere_first
      (reference_array_from next
         (map negb (map (is_gap dtype) (pre ++ g :: post)))) (-1) i
    = Ok (i + List.length pre)%nat.
Proof.
  induction pre as [|c pre IH]; intros next i Hnext Hpre Hg.
  - cbn [app map]. rewrite Hg. cbn. now rewrite Nat.add_0_r.
  - inversion Hpre as [|? ? Hc Hpre']; subst.
    cbn [app map]. rewrite Hc. cbn [negb reference_array_from argwhere_first].
    destruct (Z.eqb_spec next (-1)) as [E|_]; [lia|].
    rewrite IH by (try lia; assumption).
    cbn [List.length]. f_equal. lia.
Qed.

Lemma reference_array_no_sentinel (chars : list ascii) :
  forall next,
    0 <= next ->
    Forall (fun c => is_gap dtype c = false) chars ->
    ~ In (-1) (reference_array_from next (map negb (map (is_gap dtype) chars))).
Proof.
  induction chars as [|c chars IH]; intros next Hnext Hall Hin;
    [contradiction|].
  inversion Hall as [|? ? Hc Hall']; subst.
  cbn [map] in Hin. rewrite Hc in Hin.
  cbn [negb reference_array_from] in Hin.
  destruct Hin as [E|Hin]; [lia|].
  apply (IH (next + 1)) in Hin; [exact Hin|lia|exact Hall'].
Qed.

End PositionsMore.

(** X7.  For a reference identifier carried by exactly one sequence, of
    ungapped length L, and a start of at least 1, the outcome of
    [filter_positions] is decided by the coordinates alone: the
    end-versus-start [ValueError] for [end < start - 1]; otherwise the
    end-versus-length [ValueError], which states [end] and L, for
    [end > L]; otherwise an [IndexError] when [start = L + 1]; and in the
    one remaining case, [start <= L], an alignment is returned. *)
Theorem filter_positions_outcomes
    (a : TabularMSA) (reference_id : string) (s : Sequence) (start end_ : Z) :
  rows_with_id a reference_id = [s] ->
  1 <= start ->
  let L := ungapped_length (msa_dtype a) s in
  let outcome := snd (filter_positions reference_id start end_ a) in
  (end_ < start - 1 ->
   outcome = Raise (ValueError "end must be greater than start"))
  /\ (start - 1 <= end_ -> L < end_ ->
      outcome
      = Raise (ValueError ("end position (" ++ Fmt.int end_
                 ++ ") is larger than the length "
                 ++ "of the reference sequence (" ++ Fmt.int L ++ ")")))
  /\ (start - 1 <= end_ <= L -> start = L + 1 -> outcome = Raise IndexError)
  /\ (start - 1 <= end_ <= L -> start <= L ->
      exists returned_alignment, outcome = Ok returned_alignment).
Proof.
  intros Hrow Hstart L outcome. subst outcome.
  split; [|split; [|split]].
  - intros Hlt. unfold filter_positions.
    now rewrite (proj2 (Z.ltb_lt _ _) Hlt).
  - intros Hle Hend.
    rewrite (filter_positions_unique_reference a reference_id s start end_ Hrow)
      by (apply Z.ltb_ge; lia).
    cbv zeta. fold (ungapped_length (msa_dtype a) s). fold L.
    now rewrite (proj2 (Z.ltb_lt _ _) Hend).
  - intros [Hle Hend] ->.
    assert (end_ = L) by lia. subst end_.
    rewrite (filter_positions_unique_reference a reference_id s (L + 1) L Hrow)
      by (apply Z.ltb_ge; lia).
    cbv zeta. fold (ungapped_length (msa_dtype a) s). fold L.
    rewrite Z.ltb_irrefl. replace (L + 1 - 1) with L by lia.
    rewrite argwhere_first_absent; [reflexivity|].
    intros Hin. apply reference_array_range in Hin.
    fold (ungapped_length (msa_dtype a) s) in Hin. fold L in Hin.
    pose proof (count_true_nonneg
                  (map negb (map (is_gap (msa_dtype a)) (seq_chars s)))) as Hge.
    fold (ungapped_length (msa_dtype a) s) in Hge. fold L in Hge.
    lia.
  - intros [Hle Hend] HstartL.
    rewrite (filter_positions_unique_reference a reference_id s start end_ Hrow)
      by (apply Z.ltb_ge; lia).
    cbv zeta. fold (ungapped_length (msa_dtype a) s). fold L.
    set (non_gaps := map negb (map (is_gap (msa_dtype a)) (seq_chars s))).
    replace (L <? end_) with false by (symmetry; apply Z.ltb_ge; lia).
    destruct (argwhere_first_present (reference_array_from 0 non_gaps)
                (start - 1) 0) as [aln_start ->].
    { apply reference_array_complete.
      change (Np.count_true non_gaps) with L. lia. }
    destruct (Z.eqb_spec end_ L) as [->|Hne]; [now eexists|].
    destruct (argwhere_first_present (reference_array_from 0 non_gaps) end_ 0)
      as [aln_end ->].
    { apply reference_array_complete.
      change (Np.count_true non_gaps) with L. lia. }
    now eexists.
Qed.

Lemma filter_positions_outcomes_witness :
  snd (filter_positions "s1" 3 9 aln_full_reference)
  = Raise (ValueError
             "end position (9) is larger than the length of the reference sequence (7)")
  /\ snd (filter_positions "s1" 8 7 aln_full_reference) = Raise IndexError
  /\ exists returned_alignment,
       snd (filter_positions "s1" 3 5 aln_full_reference)
       = Ok returned_alignment.
Proof.
  split; [|split].
  - apply (proj1 (proj2 (filter_positions_outcomes
                           aln_full_reference "s1" (dna "s1" "CCA-T-AGA") 3 9
                           eq_refl ltac:(lia))));
      [lia|reflexivity].
  - apply (proj1 (proj2 (proj2 (filter_positions_outcomes
                           aln_full_reference "s1" (dna "s1" "CCA-T-AGA") 8 7
                           eq_refl ltac:(lia))))); [cbn; lia|reflexivity].
  - apply (proj2 (proj2 (proj2 (filter_positions_outcomes
                           aln_full_reference "s1" (dna "s1" "CCA-T-AGA") 3 5
                           eq_refl ltac:(lia))))); cbn; lia.
Defined.

(** X8.  When no sequence carries the reference identifier and the
    end-versus-start check has passed, [filter_positions] raises a
    [KeyError] naming the identifier, and the alignment it was given stays
    re-keyed by sequence identifier although the call failed. *)
Theorem filter_positions_unknown_reference
    (a : TabularMSA) (reference_id : string) (start end_ : Z) :
  rows_with_id a reference_id = [] ->
  start - 1 <= end_ ->
  filter_positions reference_id start end_ a
  = (reassign_index_id a,
     Raise (KeyError (reference_id ++ " not found in alignment."))).
Proof.
  intros Hrow Hle. unfold filter_positions.
  replace (end_ <? start - 1) with false by (symmetry; apply Z.ltb_ge; lia).
  unfold bind at 1, modify.
  unfold bind at 1, except_KeyError.
  unfold bind at 1. rewrite loc_reassign_index_id, Hrow.
  reflexivity.
Qed.

Lemma filter_positions_unknown_reference_witness :
  filter_positions "s9" 1 3 aln_full_reference
  = (reassign_index_id aln_full_reference,
     Raise (KeyError "s9 not found in alignment."))
  /\ msa_index (reassign_index_id aln_full_reference)
     <> msa_index aln_full_reference.
Proof.
  split; [|discriminate].
  apply (filter_positions_unknown_reference aln_full_reference "s9" 1 3);
    [reflexivity|lia].
Defined.

(** X9.  For a well-formed alignment, a reference carried by exactly one
    sequence of ungapped length L and a start between 1 and L, the
    alignment returned for [end] = L holds the reference cut to the
    columns from [aln_start] on, and the residues of the reference in
    it are exactly the residues [start], ..., L of the reference; every
    sequence of the result has the columns of the input less the
    [aln_start] dropped ones. *)
Theorem filter_positions_reference_residues
    (a : TabularMSA) (reference_id : string) (s : Sequence) (start : Z) :
  msa_wf a ->
  rows_with_id a reference_id = [s] ->
  let L := ungapped_length (msa_dtype a) s in
  1 <= start <= L ->
  exists aln_start,
    let b := slice_from (reassign_index_id a) aln_start in
    filter_positions reference_id start L a
    = (reassign_index_id a, Ok (New b))
    /\ In (seq_with_chars s (skipn aln_start (seq_chars s))) (msa_seqs b)
    /\ residues (msa_dtype a) (skipn aln_start (seq_chars s))
       = skipn (Z.to_nat (start - 1)) (residues (msa_dtype a) (seq_chars s))
    /\ Forall (fun r => List.length (seq_chars r)
                        = (shape_position a - aln_start)%nat)
              (msa_seqs b).
Proof.
  intros [Hrows _] Hrow L Hstart.
  assert (Hcheck : (L <? start - 1) = false) by (apply Z.ltb_ge; lia).
  rewrite (filter_positions_unique_reference a reference_id s _ _ Hrow Hcheck).
  cbv zeta. fold (ungapped_length (msa_dtype a) s). fold L.
  set (non_gaps := map negb (map (is_gap (msa_dtype a)) (seq_chars s))).
  rewrite Z.ltb_irrefl, Z.eqb_refl.
  destruct (argwhere_first_present (reference_array_from 0 non_gaps)
              (start - 1) 0) as [aln_start Hfind].
  { apply reference_array_complete.
    change (Np.count_true non_gaps) with L. lia. }
  rewrite Hfind. exists aln_start.
  apply argwhere_first_column in Hfind as [_ [_ Hcount]]; [|lia].
  rewrite Nat.sub_0_r in Hcount.
  split; [reflexivity|]. split; [|split].
  - cbn [slice_from msa_seqs reassign_index_id].
    apply in_map_iff. exists s. split; [reflexivity|].
    assert (Hin : In s (rows_with_id a reference_id))
      by (rewrite Hrow; now left).
    now apply filter_In in Hin.
  - apply residues_skipn. unfold non_gaps in Hcount. lia.
  - cbn [slice_from msa_seqs reassign_index_id].
    apply Forall_forall. intros r Hin.
    apply in_map_iff in Hin as [r0 [<- Hin]].
    cbn [seq_with_chars seq_chars]. rewrite length_skipn.
    now rewrite (proj1 (Forall_forall _ _) Hrows r0 Hin).
Qed.

Lemma filter_positions_reference_residues_witness :
  exists aln_start,
    filter_positions "s1" 4 7 aln_full_reference
    = (reassign_index_id aln_full_reference,
       Ok (New (slice_from (reassign_index_id aln_full_reference) aln_start)))
    /\ residues DNA (skipn aln_start (list_ascii_of_string "CCA-T-AGA"))
       = list_ascii_of_string "TAGA".
Proof.
  destruct (filter_positions_reference_residues
              aln_full_reference "s1" (dna "s1" "CCA-T-AGA") 4)
    as [aln_start [Hrun [_ [Hres _]]]].
  - split; [repeat constructor|reflexivity].
  - reflexivity.
  - cbn; lia.
  - exists aln_start. split; [exact Hrun|exact Hres].
Defined.

(** X10.  A start of 0 is not rejected: converted to -1 it equals the
    sentinel that marks the gap columns of the reference.  For a
    reference carried by exactly one sequence of ungapped length L, the
    call with start 0 and end L returns the alignment from the first gap
    column of the reference on, and raises an [IndexError] when the
    reference has no gap. *)
Theorem filter_positions_start_zero
    (a : TabularMSA) (reference_id : string) (s : Sequence) :
  rows_with_id a reference_id = [s] ->
  let L := ungapped_length (msa_dtype a) s in
  (forall pre g post,
      seq_chars s = (pre ++ g :: post)%list ->
      Forall (fun c => is_gap (msa_dtype a) c = false) pre ->
      is_gap (msa_dtype a) g = true ->
      filter_positions reference_id 0 L a
      = (reassign_index_id a,
         Ok (New (slice_from (reassign_index_id a) (List.length pre)))))
  /\ (Forall (fun c => is_gap (msa_dtype a) c = false) (seq_chars s) ->
      filter_positions reference_id 0 L a
      = (reassign_index_id a, Raise IndexError)).
Proof.
  intros Hrow L.
  assert (HL : 0 <= L) by apply count_true_nonneg.
  assert (Hcheck : (L <? 0 - 1) = false) by (apply Z.ltb_ge; lia).
  rewrite (filter_positions_unique_reference a reference_id s _ _ Hrow Hcheck).
  cbv zeta. fold (ungapped_length (msa_dtype a) s). fold L.
  rewrite Z.ltb_irrefl, Z.eqb_refl. change (0 - 1) with (-1).
  split.
  - intros pre g post Hchars Hpre Hg. rewrite Hchars.
    rewrite (argwhere_first_sentinel (msa_dtype a) g post pre 0 0);
      [reflexivity|lia|exact Hpre|exact Hg].
  - intros Hall. rewrite argwhere_first_absent; [reflexivity|].
    now apply reference_array_no_sentinel.
Qed.

Lemma filter_positions_start_zero_witness :
  filter_positions "s1" 0 7 aln_full_reference
  = (reassign_index_id aln_full_reference,
     Ok (New (slice_from (reassign_index_id aln_full_reference) 3)))
  /\ chars_of (slice_from (reassign_index_id aln_full_reference) 3)
     = [("s1", "-T-AGA"); ("s2", "-T-ATA"); ("s3", "GTTATA")].
Proof.
  split; [|reflexivity].
  apply (proj1 (filter_positions_start_zero
                  aln_full_reference "s1" (dna "s1" "CCA-T-AGA") eq_refl)
           (list_ascii_of_string "CCA") "-"%char
           (list_ascii_of_string "T-AGA"));
    [reflexivity|repeat constructor|reflexivity].
Defined.

(** ** [mask]: thresholds that keep everything, relaxed thresholds, and
       masking twice *)

Section ColumnCounts.

Local Open Scope Q_scope.

Variable dtype : sequence_dtype.

Lemma frequencies_keys (chars : list ascii) (codes : list nat) :
  dict_keys
    (flat_map
       (fun code =>
          let c := ascii_of_nat code in
          let n := count_occ ascii_dec chars c in
          if (n =? 0)%nat then [] else [(c, inject_Z (Z.of_nat n))])
       codes)
  = map ascii_of_nat
        (filter (fun code =>
                   negb (count_occ ascii_dec chars (ascii_of_nat code) =? 0)%nat)
                codes).
Proof.
  unfold dict_keys.
  induction codes as [|code codes IH]; cbn [flat_map filter map];
    [reflexivity|].
  rewrite map_app, IH.
  now destruct (count_occ ascii_dec chars (ascii_of_nat code) =? 0)%nat.
Qed.

(** A character has one entry in the frequency vector of a column. *)
Lemma frequencies_wf (chars : list ascii) : dict_wf (frequencies chars).
Proof.
  unfold dict_wf, frequencies. rewrite frequencies_keys.
  apply NoDup_map_NoDup_ForallPairs.
  - intros x y Hx Hy E.
    apply filter_In in Hx as [Hx _]. apply filter_In in Hy as [Hy _].
    apply in_seq in Hx. apply in_seq in Hy.
    rewrite <- (nat_ascii_embedding x), <- (nat_ascii_embedding y) by lia.
    now rewrite E.
  - apply NoDup_filter, seq_NoDup.
Qed.

(** The counts of a frequency vector are positive. *)
Lemma frequencies_positive (chars : list ascii) :
  Forall (fun kv => 0 < snd kv) (frequencies chars).
Proof.
  apply Forall_forall. intros kv Hin. unfold frequencies in Hin.
  apply in_flat_map in Hin as [code [_ Hin]]. cbv zeta in Hin.
  destruct (Nat.eqb_spec (count_occ ascii_dec chars (ascii_of_nat code)) 0)
    as [|Hne]; [contradiction|].
  destruct Hin as [<-|[]]. cbn [snd].
  unfold Qlt; cbn. lia.
Qed.

Lemma dict_del_subset (g : ascii) (d : dict) (kv : ascii * Q) :
  In kv (dict_del g d) -> In kv d.
Proof.
  induction d as [|[k v] d IH]; cbn [dict_del]; [tauto|].
  destruct (Ascii.eqb g k); [now right|].
  intros [E|Hin]; [now left|right; now apply IH].
Qed.

Lemma drop_gaps_subset (f : dict) (kv : ascii * Q) :
  In kv (drop_gaps dtype f) -> In kv f.
Proof.
  unfold drop_gaps. revert f.
  induction (gap_chars dtype) as [|g G IH]; intros f Hin; [exact Hin|].
  cbn [fold_left] in Hin. apply IH in Hin.
  destruct (dict_contains g f); [now apply dict_del_subset in Hin|exact Hin].
Qed.

(** With positive counts a column passes the conservation test at 0. *)
Lemma conservation_bit_zero (f : dict) :
  Forall (fun kv => 0 < snd kv) f -> conservation_bit dtype 0 f = true.
Proof.
  intros Hpos. unfold conservation_bit, conserved_fraction.
  destruct (dict_values (drop_gaps dtype f)) as [|v vs] eqn:E; [reflexivity|].
  assert (Hvs : Forall (fun x => 0 < x) (v :: vs)).
  { rewrite <- E. unfold dict_values. apply Forall_forall. intros x Hx.
    apply in_map_iff in Hx as [kv [<- Hin]].
    apply drop_gaps_subset in Hin.
    now apply (proj1 (Forall_forall _ _) Hpos). }
  destruct (max_le_sum v vs Hvs) as [Hm Hms].
  destruct (true_divide_unit_interval _ _ Hm Hms) as [q [-> [Hq _]]].
  cbn [Np.ge]. now apply Qle_bool_iff.
Qed.

Lemma sum_filter_le (p : ascii * Q -> bool) (f : dict) :
  Forall (fun kv => 0 < snd kv) f ->
  0 <= Np.sum (dict_values (filter p f))
  /\ Np.sum (dict_values (filter p f)) <= Np.sum (dict_values f).
Proof.
  unfold dict_values.
  induction 1 as [|kv f Hkv _ [IH0 IH]]; cbn [filter map].
  - rewrite sum_nil. lra.
  - destruct (p kv); cbn [map]; rewrite ?sum_cons; lra.
Qed.

(** With positive counts that add up to the number of sequences, a column
    passes the gap test at 1. *)
Lemma gap_bit_one (N : Q) (f : dict) :
  NoDup (gap_chars dtype) ->
  dict_wf f ->
  Forall (fun kv => 0 < snd kv) f ->
  Np.sum (dict_values f) == N ->
  0 < N ->
  gap_bit dtype 1 N f = true.
Proof.
  intros HG Hwf Hpos Hsum HN. unfold gap_bit, Np.true_divide.
  destruct (Qeq_bool N 0) eqn:E; [apply Qeq_bool_iff in E; lra|].
  cbn [Np.le]. apply Qle_bool_iff.
  apply Qle_shift_div_r; [exact HN|].
  rewrite (gap_frequency_sum_entries dtype f HG Hwf).
  destruct (sum_filter_le (fun kv => is_gap dtype (fst kv)) f Hpos) as [_ Hle].
  unfold gap_entries. lra.
Qed.

End ColumnCounts.

Section MaskMore.

Lemma map_all_true {A} (f : A -> bool) (l : list A) :
  (forall x, In x l -> f x = true) ->
  map f l = repeat true (List.length l).
Proof.
  induction l as [|x l IH]; intros H; cbn [map List.length repeat];
    [reflexivity|].
  rewrite H by now left. f_equal. apply IH. intros y Hy. apply H. now right.
Qed.

Lemma mask_and_all_true (n : nat) :
  mask_and (repeat true n) (repeat true n) = repeat true n.
Proof. induction n as [|n IH]; cbn; [reflexivity|now rewrite IH]. Qed.

Lemma frequencies_of_column (a : TabularMSA) (f : dict) :
  In f (_compute_frequencies a) ->
  dict_wf f /\ Forall (fun kv => (0 < snd kv)%Q) f.
Proof.
  unfold _compute_frequencies. intros Hin.
  apply in_map_iff in Hin as [col [<- _]].
  split; [apply frequencies_wf|apply frequencies_positive].
Qed.

Lemma shape_sequence_positive (a : TabularMSA) :
  shape_position a <> O -> (0 < inject_Z (Z.of_nat (shape_sequence a)))%Q.
Proof.
  unfold shape_position, shape_sequence.
  destruct (msa_seqs a); [contradiction|].
  intros _. unfold Qlt; cbn. lia.
Qed.





Lemma mask_and_comm (x : list bool) :
  forall y, mask_and x y = mask_and y x.
Proof.
  induction x as [|b x IH]; intros [|c y]; cbn [mask_and]; try reflexivity.
  now rewrite IH, andb_comm.
Qed.


Lemma kept_columns_length (a : TabularMSA) (g c : Q) :
  List.length (kept_columns a g c) = shape_position a.
Proof.
  unfold kept_columns, gap_mask_of, conservation_mask_of.
  rewrite mask_and_length; rewrite !length_map;
    [apply compute_frequencies_length|reflexivity].
Qed.


(** What [mask] returns, read off [mask_run]. *)
Lemma mask_success (a a' : TabularMSA) (g c : Q) (r : returned) :
  mask g c a = (a', Ok r) ->
  out_of_unit_interval g = false
  /\ out_of_unit_interval c = false
  /\ shape_position a <> O
  /\ a' = a
  /\ r = New (_apply_mask a (kept_columns a g c))
  /\ shape_position (_apply_mask a (kept_columns a g c)) <> O.
Proof.
  rewrite mask_run. intros Hrun. injection Hrun as <- Hout.
  unfold mask_outcome in Hout. fold (kept_columns a g c) in Hout.
  destruct (out_of_unit_interval g); [discriminate|].
  destruct (out_of_unit_interval c); [discriminate|].
  destruct (Nat.eqb_spec (shape_position a) 0) as [|Hpos]; [discriminate|].
  cbv zeta in Hout.
  destruct (Nat.eqb_spec (shape_position (_apply_mask a (kept_columns a g c))) 0)
    as [|Hpos']; [discriminate|].
  injection Hout as <-. repeat split; assumption.
Qed.

Lemma apply_mask_shape (a : TabularMSA) (m : list bool) :
  msa_wf a -> shape_position a <> O ->
  List.length m = shape_position a ->
  msa_wf (_apply_mask a m)
  /\ shape_position (_apply_mask a m) = count m
  /\ shape_sequence (_apply_mask a m) = shape_sequence a.
Proof.
  intros Hwf Hpos Hlen.
  destruct (frequencies_apply_mask a m Hwf Hpos Hlen) as [Hshape _].
  destruct Hwf as [Hrows Hindex].
  split; [split|split].
  - rewrite Hshape. cbn [_apply_mask msa_seqs].
    apply Forall_forall. intros s Hin.
    apply in_map_iff in Hin as [s0 [<- Hin]].
    cbn [seq_with_chars seq_chars]. apply select_length.
    rewrite Hlen. now apply (proj1 (Forall_forall _ _) Hrows).
  - cbn [_apply_mask msa_seqs msa_index]. now rewrite length_map.
  - exact Hshape.
  - unfold shape_sequence. cbn [_apply_mask msa_seqs]. apply length_map.
Qed.

Lemma count_le_length (m : list bool) : (count m <= List.length m)%nat.
Proof. unfold count. apply filter_length_le. Qed.

End MaskMore.

Section GapBoundary.

Local Open Scope Q_scope.

Variable dtype : sequence_dtype.

Lemma sum_positive (l : list Q) :
  Forall (fun x => 0 < x) l -> l <> [] -> 0 < Np.sum l.
Proof.
  intros Hpos Hne. destruct l as [|v vs]; [contradiction|].
  destruct (max_le_sum v vs Hpos) as [Hm Hms]. lra.
Qed.

(** The characters that have an entry in the frequency vector of a column
    are the characters of the column. *)
Lemma frequencies_key_iff (chars : list ascii) (c : ascii) :
  In c (dict_keys (frequencies chars)) <-> In c chars.
Proof.
  unfold frequencies. rewrite frequencies_keys, in_map_iff. split.
  - intros [code [<- Hin]]. apply filter_In in Hin as [_ Hn].
    apply negb_true_iff, Nat.eqb_neq in Hn.
    apply (count_occ_In ascii_dec). lia.
  - intros Hin. exists (nat_of_ascii c). split; [apply ascii_nat_embedding|].
    apply filter_In. split.
    + apply in_seq. pose proof (nat_ascii_bounded c). lia.
    + rewrite ascii_nat_embedding. apply negb_true_iff, Nat.eqb_neq.
      apply (count_occ_In ascii_dec) in Hin. lia.
Qed.

Lemma gap_entries_none (chars : list ascii) :
  gap_entries dtype (frequencies chars) = []
  <-> forallb (fun ch => negb (is_gap dtype ch)) chars = true.
Proof.
  rewrite forallb_forall. unfold gap_entries. split.
  - intros Hnone ch Hin. apply negb_true_iff, not_true_is_false. intros Hgap.
    apply frequencies_key_iff in Hin. unfold dict_keys in Hin.
    apply in_map_iff in Hin as [kv [Hk Hin]].
    assert (Hf : In kv (filter (fun kv => is_gap dtype (fst kv))
                               (frequencies chars)))
      by (apply filter_In; split; [exact Hin|now rewrite Hk]).
    now rewrite Hnone in Hf.
  - intros Hall.
    destruct (filter _ (frequencies chars)) as [|kv rest] eqn:E;
      [reflexivity|].
    assert (Hin : In kv (filter (fun kv => is_gap dtype (fst kv))
                                (frequencies chars)))
      by (rewrite E; now left).
    apply filter_In in Hin as [Hin Hgap].
    assert (Hkey : In (fst kv) chars).
    { apply frequencies_key_iff. unfold dict_keys. now apply in_map. }
    apply Hall in Hkey. rewrite Hgap in Hkey. discriminate.
Qed.

(** At the threshold 0 a column passes the gap test exactly when it holds
    no gap character. *)
Lemma gap_bit_zero (N : Q) (chars : list ascii) :
  NoDup (gap_chars dtype) ->
  0 < N ->
  gap_bit dtype 0 N (frequencies chars)
  = forallb (fun ch => negb (is_gap dtype ch)) chars.
Proof.
  intros HG HN. unfold gap_bit, Np.true_divide.
  destruct (Qeq_bool N 0) eqn:E; [apply Qeq_bool_iff in E; lra|].
  cbn [Np.le].
  pose proof (gap_frequency_sum_entries dtype (frequencies chars) HG
                (frequencies_wf chars)) as Hsum.
  destruct (forallb _ chars) eqn:Hall.
  - apply Qle_bool_iff. apply gap_entries_none in Hall.
    rewrite Hall in Hsum. cbn in Hsum. rewrite Hsum.
    apply Qle_shift_div_r; [exact HN|lra].
  - apply not_true_is_false. intros Hle. apply Qle_bool_iff in Hle.
    assert (Hne : gap_entries dtype (frequencies chars) <> []).
    { intros Hnone. apply gap_entries_none in Hnone. congruence. }
    assert (Hpos : 0 < Np.sum (dict_values (gap_entries dtype (frequencies chars)))).
    { apply sum_positive.
      - unfold gap_entries, dict_values. apply Forall_forall. intros x Hx.
        apply in_map_iff in Hx as [kv [<- Hin]].
        apply filter_In in Hin as [Hin _].
        now apply (proj1 (Forall_forall _ _) (frequencies_positive chars)).
      - unfold dict_values. intros Hnil. apply Hne.
        now apply map_eq_nil in Hnil. }
    assert (0 < gap_frequency_sum dtype (frequencies chars) / N).
    { apply Qlt_shift_div_l; [exact HN|]. rewrite Hsum. lra. }
    lra.
Qed.

End GapBoundary.

Section MaskAnd.

Lemma mask_and_true_l (m : list bool) :
  mask_and (repeat true (List.length m)) m = m.
Proof. induction m as [|b m IH]; cbn; [reflexivity|now rewrite IH]. Qed.

Lemma mask_and_true_r (m : list bool) :
  mask_and m (repeat true (List.length m)) = m.
Proof. rewrite mask_and_comm. apply mask_and_true_l. Qed.

Lemma mask_le_count (m m' : list bool) :
  mask_le m m' -> (count m <= count m')%nat.
Proof.
  unfold count. induction 1 as [|b b' m m' Hb _ IH]; [apply Nat.le_refl|].
  cbn [filter]. destruct b; [rewrite (Hb eq_refl); cbn [List.length]; lia|].
  destruct b'; cbn [List.length]; lia.
Qed.

End MaskAnd.

(** X11.  For a well-formed alignment with at least one column, over a
    sequence class whose gap characters are listed once: at
    [max_gap_frequency] = 1 the gap test keeps every column, so the
    columns kept are those of the conservation test; at
    [min_conservation] = 0 the conservation test keeps every column; at
    [max_gap_frequency] = 0 the gap test keeps exactly the columns
    without a gap character; and [mask] with the thresholds 1 and 0
    returns an alignment equal to its input. *)
Theorem mask_threshold_boundaries (a : TabularMSA) :
  msa_wf a ->
  shape_position a <> O ->
  NoDup (gap_chars (msa_dtype a)) ->
  (forall c, kept_columns a 1 c = conservation_mask_of a c)
  /\ (forall g, kept_columns a g 0 = gap_mask_of a g)
  /\ gap_mask_of a 0
     = map (forallb (fun ch => negb (is_gap (msa_dtype a) ch)))
           (iter_positions a)
  /\ mask 1 0 a = (a, Ok (New a)).
Proof.
  intros Hwf Hpos HG.
  pose proof (shape_sequence_positive a Hpos) as HN.
  assert (Hgap : gap_mask_of a 1 = repeat true (shape_position a)).
  { unfold gap_mask_of. rewrite map_all_true.
    - now rewrite compute_frequencies_length.
    - intros f Hin. destruct (frequencies_of_column a f Hin) as [Hfwf Hfpos].
      apply gap_bit_one; try assumption.
      now apply frequencies_total_column. }
  assert (Hcons : conservation_mask_of a 0 = repeat true (shape_position a)).
  { unfold conservation_mask_of. rewrite map_all_true.
    - now rewrite compute_frequencies_length.
    - intros f Hin. destruct (frequencies_of_column a f Hin) as [_ Hfpos].
      now apply conservation_bit_zero. }
  assert (Hclen : forall c, List.length (conservation_mask_of a c)
                            = shape_position a).
  { intros c. unfold conservation_mask_of.
    now rewrite length_map, compute_frequencies_length. }
  assert (Hglen : forall g, List.length (gap_mask_of a g) = shape_position a).
  { intros g. unfold gap_mask_of.
    now rewrite length_map, compute_frequencies_length. }
  split; [|split; [|split]].
  - intros c. unfold kept_columns.
    rewrite Hgap, <- (Hclen c). apply mask_and_true_l.
  - intros g. unfold kept_columns.
    rewrite Hcons, <- (Hglen g). apply mask_and_true_r.
  - unfold gap_mask_of, _compute_frequencies. rewrite map_map.
    apply map_ext. intros col. now apply gap_bit_zero.
  - rewrite mask_run. f_equal. unfold mask_outcome.
    replace (out_of_unit_interval 1) with false by reflexivity.
    replace (out_of_unit_interval 0) with false by reflexivity.
    destruct (Nat.eqb_spec (shape_position a) 0) as [|_]; [contradiction|].
    cbv zeta. rewrite Hgap, Hcons, mask_and_all_true.
    rewrite (apply_mask_all a (shape_position a) (proj1 Hwf)).
    destruct (Nat.eqb_spec (shape_position a) 0) as [|_];
      [contradiction|reflexivity].
Qed.

Lemma mask_threshold_boundaries_witness :
  mask 1 0 aln_full_reference
  = (aln_full_reference, Ok (New aln_full_reference))
  /\ gap_mask_of aln_full_reference 0
     = [false; false; false; false; true; false; true; true; true].
Proof.
  assert (Hwf : msa_wf aln_full_reference)
    by (split; [repeat constructor|reflexivity]).
  assert (Hpos : shape_position aln_full_reference <> O) by discriminate.
  assert (HG : NoDup (gap_chars (msa_dtype aln_full_reference)))
    by (repeat constructor; cbn; intuition congruence).
  destruct (mask_threshold_boundaries aln_full_reference Hwf Hpos HG)
    as [_ [_ [Hzero Hall]]].
  split; [exact Hall|]. rewrite Hzero. reflexivity.
Defined.

(** X12.  Relaxing the thresholds never loses a column: for
    [g <= g'] and [c' <= c], every column [mask] keeps at [(g, c)] it
    keeps at [(g', c')], and when [mask] succeeds on a well-formed
    alignment at [(g, c)] it succeeds at every relaxed pair of thresholds
    in range, with at least as many columns. *)
Theorem mask_relaxed_thresholds
    (a a' : TabularMSA) (g c g' c' : Q) (r : returned) :
  msa_wf a ->
  (g <= g')%Q -> (c' <= c)%Q ->
  out_of_unit_interval g' = false ->
  out_of_unit_interval c' = false ->
  mask g c a = (a', Ok r) ->
  mask_le (kept_columns a g c) (kept_columns a g' c')
  /\ exists b',
       mask g' c' a = (a, Ok (New b'))
       /\ (shape_position (value_of a' r) <= shape_position b')%nat.
Proof.
  intros Hwf Hg Hc Hg' Hc' Hrun.
  apply mask_success in Hrun as [_ [_ [Hpos [-> [-> Hkept]]]]].
  assert (Hle : mask_le (kept_columns a g c) (kept_columns a g' c')).
  { unfold mask_le, kept_columns, gap_mask_of, conservation_mask_of.
    induction (_compute_frequencies a) as [|f F IH]; cbn [map mask_and];
      constructor; [|exact IH].
    unfold gap_bit, conservation_bit. intros Hb.
    apply andb_true_iff in Hb as [Hgap Hcons]. apply andb_true_iff. split.
    - destruct (Np.true_divide _ _); cbn [Np.le] in *; try assumption.
      apply Qle_bool_iff. apply Qle_bool_iff in Hgap. lra.
    - destruct (conserved_fraction _); cbn [Np.ge] in *; try assumption.
      apply Qle_bool_iff. apply Qle_bool_iff in Hcons. lra. }
  split; [exact Hle|].
  destruct (apply_mask_shape a (kept_columns a g c) Hwf Hpos
              (kept_columns_length a g c)) as [_ [Hshape _]].
  destruct (apply_mask_shape a (kept_columns a g' c') Hwf Hpos
              (kept_columns_length a g' c')) as [_ [Hshape' _]].
  pose proof (mask_le_count _ _ Hle) as Hcount.
  exists (_apply_mask a (kept_columns a g' c')). cbn [value_of].
  split; [|lia].
  rewrite mask_run. f_equal. unfold mask_outcome. rewrite Hg', Hc'.
  destruct (Nat.eqb_spec (shape_position a) 0) as [|_]; [contradiction|].
  cbv zeta. fold (kept_columns a g' c').
  destruct (Nat.eqb_spec (shape_position (_apply_mask a (kept_columns a g' c'))) 0)
    as [Hzero|_]; [lia|reflexivity].
Qed.

Lemma mask_relaxed_thresholds_witness :
  exists b',
    mask (1 # 2) (3 # 10) aln_basic = (aln_basic, Ok (New b'))
    /\ (2 <= shape_position b')%nat.
Proof.
  assert (Hwf : msa_wf aln_basic) by (split; [repeat constructor|reflexivity]).
  destruct (mask_relaxed_thresholds aln_basic aln_basic
              (5 # 100) (3 # 10) (1 # 2) (3 # 10)
              (New (_apply_mask aln_basic [false; true; true]))
              Hwf ltac:(unfold Qle; cbn; lia) ltac:(unfold Qle; cbn; lia)
              eq_refl eq_refl ltac:(vm_compute; reflexivity))
    as [_ [b' [Hrun Hcols]]].
  exists b'. split; [exact Hrun|exact Hcols].
Defined.



(** X14.  Whatever [mask] returns on a well-formed alignment is
    well-formed again, has the same sequences in number and class, and
    has at least one column and at most the columns of the input. *)
Theorem mask_result_invariants
    (a a' : TabularMSA) (g c : Q) (r : returned) :
  msa_wf a ->
  mask g c a = (a', Ok r) ->
  let b := value_of a' r in
  msa_wf b
  /\ shape_sequence b = shape_sequence a
  /\ msa_dtype b = msa_dtype a
  /\ (0 < shape_position b <= shape_position a)%nat.
Proof.
  intros Hwf Hrun b. subst b.
  apply mask_success in Hrun as [_ [_ [Hpos [-> [-> Hkept]]]]].
  cbn [value_of].
  destruct (apply_mask_shape a (kept_columns a g c) Hwf Hpos
              (kept_columns_length a g c)) as [Hwf' [Hshape Hseq]].
  repeat split; try assumption; try apply Hwf'.
  - lia.
  - rewrite Hshape, <- (kept_columns_length a g c). apply count_le_length.
Qed.

Lemma mask_result_invariants_witness :
  exists b,
    mask (5 # 100) (3 # 10) aln_basic = (aln_basic, Ok (New b))
    /\ msa_wf b /\ shape_sequence b = 3%nat.
Proof.
  assert (Hwf : msa_wf aln_basic) by (split; [repeat constructor|reflexivity]).
  assert (Hrun : mask (5 # 100) (3 # 10) aln_basic
                 = (aln_basic,
                    Ok (New (_apply_mask aln_basic [false; true; true]))))
    by (vm_compute; reflexivity).
  destruct (mask_result_invariants aln_basic aln_basic (5 # 100) (3 # 10) _
              Hwf Hrun) as [Hwf' [Hseq _]].
  eexists. split; [exact Hrun|]. split; [exact Hwf'|exact Hseq].
Defined.

(** X15.  [mask] raises nothing but a [ValueError], with one of its four
    messages: the [IndexError] that [_compute_gap_mask] raises on an
    empty list of frequency vectors is out of reach, because [mask]
    rejects an alignment without columns first. *)
Theorem mask_raises_only_ValueError (g c : Q) (a : TabularMSA) (e : exn) :
  snd (mask g c a) = Raise e ->
  _compute_gap_mask [] (msa_dtype a) g = Raise IndexError
  /\ (e = ValueError (max_gap_frequency_message g)
      \/ e = ValueError (min_conservation_message c)
      \/ e = ValueError empty_alignment_message
      \/ exists str_passed_gap str_passed_conservation,
           e = ValueError (no_positions_message str_passed_gap
                             str_passed_conservation)).
Proof.
  rewrite mask_run. cbn [snd]. unfold mask_outcome. intros He.
  split; [reflexivity|].
  destruct (out_of_unit_interval g);
    [left; now injection He as <-|].
  destruct (out_of_unit_interval c);
    [right; left; now injection He as <-|].
  destruct (shape_position a =? 0)%nat;
    [right; right; left; now injection He as <-|].
  cbv zeta in He.
  destruct (shape_position _ =? 0)%nat; [|discriminate].
  right; right; right. injection He as <-. now do 2 eexists.
Qed.

Lemma mask_raises_only_ValueError_witness :
  let e := ValueError empty_alignment_message in
  snd (mask 1 (4 # 10) (new_TabularMSA DNA [])) = Raise e
  /\ (e = ValueError (max_gap_frequency_message 1)
      \/ e = ValueError (min_conservation_message (4 # 10))
      \/ e = ValueError empty_alignment_message
      \/ exists str_passed_gap str_passed_conservation,
           e = ValueError (no_positions_message str_passed_gap
                             str_passed_conservation)).
Proof.
  intros e. split; [reflexivity|].
  exact (proj2 (mask_raises_only_ValueError 1 (4 # 10) (new_TabularMSA DNA [])
                  e eq_refl)).
Defined.

(** ** [_most_conserved] and the vectors of its caller *)

Section MostConservedMutation.

Local Open Scope Q_scope.

Variable dtype : sequence_dtype.

Lemma without_gaps_no_gap_key (f : dict) (gc : ascii) :
  In gc (gap_chars dtype) -> dict_contains gc (without_gaps dtype f) = false.
Proof.
  intros Hgc. unfold without_gaps.
  assert (Hgap : is_gap dtype gc = true).
  { unfold is_gap. apply existsb_exists. exists gc. split; [exact Hgc|].
    apply Ascii.eqb_refl. }
  induction f as [|[k v] f IH]; cbn [filter fst]; [reflexivity|].
  destruct (is_gap dtype k) eqn:Hk; cbn [negb]; [exact IH|].
  cbn [dict_contains]. rewrite IH, orb_false_r.
  apply Ascii.eqb_neq. intros ->. congruence.
Qed.

Lemma dict_get_not_contained (gc : ascii) (f : dict) :
  dict_contains gc f = false -> dict_get gc f 0 = 0.
Proof.
  induction f as [|[k v] f IH]; cbn [dict_contains dict_get]; [reflexivity|].
  destruct (Ascii.eqb gc k); [discriminate|]. exact IH.
Qed.

Lemma sum_zeros (l : list Q) : Forall (fun x => x = 0) l -> Np.sum l == 0.
Proof.
  induction 1 as [|x l -> _ IH]; [reflexivity|].
  rewrite sum_cons, IH. ring.
Qed.

Lemma without_gaps_idempotent (f : dict) :
  without_gaps dtype (without_gaps dtype f) = without_gaps dtype f.
Proof.
  unfold without_gaps. rewrite filter_twice. apply filter_ext.
  intros kv. now destruct (is_gap dtype (fst kv)).
Qed.

End MostConservedMutation.

(** X16.  [_most_conserved] works on the frequency vectors of its caller:
    after the call no vector has an entry for a gap character, so the sum
    [_compute_gap_mask] takes over the gap characters is 0 for every
    vector; a second call leaves the vectors as they are and returns the
    same fractions as the first. *)
Theorem most_conserved_mutates_its_argument
    (dtype : sequence_dtype) (frequencies : list dict) :
  Forall dict_wf frequencies ->
  let after := fst (_most_conserved dtype "ignore" frequencies) in
  after = map (without_gaps dtype) frequencies
  /\ Forall (fun f => forall gc, In gc (gap_chars dtype) ->
                               dict_contains gc f = false) after
  /\ Forall (fun f => (gap_frequency_sum dtype f == 0)%Q) after
  /\ _most_conserved dtype "ignore" after
     = (after, snd (_most_conserved dtype "ignore" frequencies)).
Proof.
  intros Hwf after. subst after.
  rewrite (most_conserved_run dtype frequencies Hwf). cbn [fst snd].
  split; [reflexivity|]. split; [|split].
  - apply Forall_forall. intros f Hin gc Hgc.
    apply in_map_iff in Hin as [f0 [<- _]].
    now apply without_gaps_no_gap_key.
  - apply Forall_forall. intros f Hin.
    apply in_map_iff in Hin as [f0 [<- _]].
    unfold gap_frequency_sum. apply sum_zeros.
    apply Forall_forall. intros x Hx.
    apply in_map_iff in Hx as [gc [<- Hgc]].
    apply dict_get_not_contained. now apply without_gaps_no_gap_key.
  - rewrite most_conserved_run.
    + rewrite !map_map. f_equal; [|f_equal].
      * apply map_ext. intros f. apply without_gaps_idempotent.
      * apply map_ext. intros f. now rewrite without_gaps_idempotent.
    + apply Forall_forall. intros f Hin.
      apply in_map_iff in Hin as [f0 [<- Hin0]].
      apply dict_wf_filter.
      now apply (proj1 (Forall_forall _ _) Hwf).
Qed.

Lemma most_conserved_mutates_its_argument_witness :
  let frequencies := [[("A"%char, 1 # 3); ("-"%char, 2 # 3)]; [("G"%char, 1)]]%Q in
  fst (_most_conserved DNA "ignore" frequencies)
  = [[("A"%char, 1 # 3)]; [("G"%char, 1)]]%Q
  /\ _compute_gap_mask frequencies DNA (1 # 2) = Ok [false; true]
  /\ _compute_gap_mask (fst (_most_conserved DNA "ignore" frequencies)) DNA
       (1 # 2)
     = Ok [true; true].
Proof.
  intros frequencies.
  assert (Hwf : Forall dict_wf frequencies)
    by (repeat constructor; cbn; intuition congruence).
  destruct (most_conserved_mutates_its_argument DNA frequencies Hwf)
    as [Hafter _].
  rewrite Hafter. repeat split; reflexivity.
Defined.

(** ** [filter_seqs]: thresholds, relaxed parameters, and filtering again *)

Section SeqsMore.

Local Open Scope Q_scope.

(** A part of a whole is never more than the whole, and 0/0 is not more
    than anything. *)
Lemma fraction_not_above (k n : nat) (t : Q) :
  (k <= n)%nat -> 1 <= t ->
  Np.gt (Np.true_divide (inject_Z (Z.of_nat k)) (inject_Z (Z.of_nat n))) t
  = false.
Proof.
  intros Hkn Ht. unfold Np.true_divide.
  destruct (Qeq_bool (inject_Z (Z.of_nat n)) 0) eqn:E.
  - apply Qeq_bool_iff in E.
    assert (n = O) by (unfold Qeq in E; cbn in E; lia). subst n.
    assert (k = O) by lia. subst k. reflexivity.
  - apply Qeq_bool_neq in E.
    assert (Hn : 0 < inject_Z (Z.of_nat n)).
    { unfold Qlt; cbn. unfold Qeq in E; cbn in E. lia. }
    cbn [Np.gt]. unfold Np.Qlt_bool. apply negb_false_iff, Qle_bool_iff.
    apply Qle_shift_div_r; [exact Hn|].
    assert (inject_Z (Z.of_nat k) <= inject_Z (Z.of_nat n))
      by (unfold Qle; cbn; lia).
    nra.
Qed.

Lemma gap_fraction_not_above (seq : Sequence) (t : Q) :
  1 <= t ->
  Np.gt (Np.true_divide (inject_Z (Np.count_true (gaps seq)))
                        (inject_Z (Z.of_nat (List.length (seq_chars seq)))))
        t
  = false.
Proof.
  intros Ht. unfold gaps. rewrite count_true_filter.
  apply fraction_not_above; [apply filter_length_le|exact Ht].
Qed.

Lemma n_fraction_not_above (seq : Sequence) (t : Q) :
  1 <= t -> Np.gt (relative_frequency "N" seq) t = false.
Proof.
  intros Ht. unfold relative_frequency.
  apply fraction_not_above; [apply count_occ_bound|exact Ht].
Qed.

Lemma gt_relaxed (x : Np.float) (t t' : Q) :
  t <= t' -> Np.gt x t = false -> Np.gt x t' = false.
Proof.
  intros Ht. destruct x; cbn [Np.gt]; try tauto.
  unfold Np.Qlt_bool. rewrite !negb_false_iff, !Qle_bool_iff. lra.
Qed.

End SeqsMore.

Section SeriesMore.

Lemma keys_set_In (key k : string) (v : Sequence) (r : Series) :
  In k (map fst (series_set key v r)) <-> k = key \/ In k (map fst r).
Proof.
  rewrite keys_set.
  destruct (existsb (String.eqb key) (map fst r)) eqn:E.
  - split; [now right|]. intros [->|H]; [|exact H].
    apply existsb_exists in E as [x [Hx Hk]].
    apply String.eqb_eq in Hk. now subst.
  - rewrite in_app_iff. cbn [In]. intuition congruence.
Qed.

Lemma keys_set_NoDup (key : string) (v : Sequence) (r : Series) :
  NoDup (map fst r) -> NoDup (map fst (series_set key v r)).
Proof.
  induction r as [|[k' v'] r IH]; intros Hnd; cbn [series_set map fst].
  - constructor; [tauto|constructor].
  - inversion Hnd as [|? ? Hk Hr]; subst.
    destruct (String.eqb_spec key k') as [->|Hne]; cbn [map fst].
    + now constructor.
    + constructor; [|now apply IH].
      intros Hin. apply keys_set_In in Hin as [E|Hin]; [congruence|tauto].
Qed.

(** The entries of a series built by storing sequences under their
    identifiers. *)
Lemma fold_set_entries (l : list Sequence) :
  forall (r : Series) (k : string) (s : Sequence),
    In (k, s) (fold_left (fun r s => series_set (seq_id s) s r) l r) ->
    In (k, s) r \/ (k = seq_id s /\ In s l).
Proof.
  induction l as [|x l IH]; intros r k s Hin; cbn [fold_left] in Hin;
    [now left|].
  apply IH in Hin as [Hin|[Hk Hin]].
  - apply In_series_set in Hin as [E|Hin]; [|now left].
    injection E as -> ->. right. split; [reflexivity|now left].
  - right. split; [exact Hk|now right].
Qed.

Lemma fold_set_keys (l : list Sequence) :
  forall (r : Series) (k : string),
    In k (map fst (fold_left (fun r s => series_set (seq_id s) s r) l r))
    <-> In k (map fst r) \/ In k (map seq_id l).
Proof.
  induction l as [|x l IH]; intros r k; cbn [fold_left map In]; [tauto|].
  rewrite IH, keys_set_In. intuition congruence.
Qed.

Lemma fold_set_NoDup (l : list Sequence) :
  forall r : Series,
    NoDup (map fst r) ->
    NoDup (map fst (fold_left (fun r s => series_set (seq_id s) s r) l r)).
Proof.
  induction l as [|x l IH]; intros r Hnd; cbn [fold_left]; [exact Hnd|].
  apply IH. now apply keys_set_NoDup.
Qed.

(** Sequences picked from a stream with distinct identifiers have distinct
    identifiers. *)
Lemma distinct_ids_filter (keep : Sequence -> bool) (seqs : list Sequence) :
  NoDup (map seq_id seqs) -> NoDup (map seq_id (filter keep seqs)).
Proof.
  induction seqs as [|s seqs IH]; cbn [filter map]; intros Hnd;
    [constructor|].
  apply NoDup_cons_iff in Hnd as [Hs Hrest].
  destruct (keep s); cbn [map]; [|now apply IH].
  apply NoDup_cons_iff. split; [|now apply IH].
  intros Hin. apply Hs.
  apply in_map_iff in Hin as [s' [<- Hs']].
  apply in_map. now apply filter_In in Hs'.
Qed.

End SeriesMore.

(** X17.  A frequency threshold of 1 or more switches its test off: with
    [max_gap_frequency >= 1] and [max_n_frequency >= 1] a sequence passes
    exactly when its length is within the length bounds.  With the
    default parameters (1.0, 1.0, 0, no maximum) every sequence passes,
    and a stream with pairwise distinct identifiers comes back whole, in
    order, each sequence under its identifier. *)
Theorem filter_seqs_thresholds_switched_off
    (seqs : list Sequence) (g n : Q) (min_length : Z) (max_length : option Z) :
  (1 <= g)%Q -> (1 <= n)%Q ->
  (forall seq,
      let seq_len := Z.of_nat (List.length (seq_chars seq)) in
      passes g n min_length max_length seq
      = (min_length <=? seq_len)
        && match max_length with
           | Some m => seq_len <=? m
           | None => true
           end)
  /\ (forall seq, passes 1 1 0 None seq = true)
  /\ (NoDup (map seq_id seqs) ->
      filter_seqs seqs 1 1 0 None = map (fun s => (seq_id s, s)) seqs).
Proof.
  intros Hg Hn.
  assert (Hpass : forall g n minl maxl seq,
             (1 <= g)%Q -> (1 <= n)%Q ->
             passes g n minl maxl seq
             = (minl <=? Z.of_nat (List.length (seq_chars seq)))
               && match maxl with
                  | Some m => Z.of_nat (List.length (seq_chars seq)) <=? m
                  | None => true
                  end).
  { intros g0 n0 minl maxl seq Hg0 Hn0.
    rewrite passes_tests. cbv zeta.
    rewrite gap_fraction_not_above, n_fraction_not_above by assumption.
    cbn [negb]. now rewrite !andb_true_r. }
  assert (Hall : forall seq, passes 1 1 0 None seq = true).
  { intros seq. rewrite Hpass by (unfold Qle; cbn; lia).
    rewrite andb_true_r. apply Z.leb_le. lia. }
  split; [intros seq; now apply Hpass|]. split; [exact Hall|].
  intros Hnd. unfold filter_seqs. rewrite loop_filter.
  rewrite forallb_filter_id
    by (apply forallb_forall; intros seq _; apply Hall).
  now apply fold_set_distinct.
Qed.

Lemma filter_seqs_thresholds_switched_off_witness :
  filter_seqs [dna "a" "NNNN"; dna "b" "----"; dna "c" EmptyString] 1 1 0 None
  = [("a", dna "a" "NNNN"); ("b", dna "b" "----"); ("c", dna "c" EmptyString)].
Proof.
  destruct (filter_seqs_thresholds_switched_off
              [dna "a" "NNNN"; dna "b" "----"; dna "c" EmptyString] 1 1 0 None)
    as [_ [_ Hall]]; try (unfold Qle; cbn; lia).
  rewrite Hall; [reflexivity|].
  repeat constructor; cbn; intuition congruence.
Defined.

(** X18.  Relaxing the parameters never loses a sequence: a sequence that
    passes at some thresholds and length bounds passes at every larger
    [max_gap_frequency] and [max_n_frequency], smaller [min_length] and
    larger or absent [max_length]; every identifier in the result stays
    in the result, and for a stream with pairwise distinct identifiers
    every entry of the result stays. *)
Theorem filter_seqs_relaxed_parameters
    (seqs : list Sequence) (g n g' n' : Q)
    (min_length min_length' : Z) (max_length max_length' : option Z) :
  (g <= g')%Q -> (n <= n')%Q ->
  min_length' <= min_length ->
  max_length_le max_length max_length' ->
  let result := filter_seqs seqs g n min_length max_length in
  let result' := filter_seqs seqs g' n' min_length' max_length' in
  (forall seq, passes g n min_length max_length seq = true ->
               passes g' n' min_length' max_length' seq = true)
  /\ (forall k, In k (map fst result) -> In k (map fst result'))
  /\ (NoDup (map seq_id seqs) ->
      forall entry, In entry result -> In entry result').
Proof.
  intros Hg Hn Hmin Hmax result result'.
  assert (Hpass : forall seq, passes g n min_length max_length seq = true ->
                              passes g' n' min_length' max_length' seq = true).
  { intros seq. rewrite !passes_tests. cbv zeta.
    rewrite !andb_true_iff, !negb_true_iff, !Z.leb_le.
    intros [[[Hlen Hmaxlen] Hgap] Hnfreq].
    repeat split.
    - lia.
    - destruct max_length as [m|], max_length' as [m'|];
        cbn [max_length_le] in Hmax; try reflexivity; try contradiction.
      apply Z.leb_le. apply Z.leb_le in Hmaxlen. lia.
    - now apply (gt_relaxed _ g g').
    - now apply (gt_relaxed _ n n'). }
  split; [exact Hpass|].
  unfold result, result', filter_seqs. rewrite !loop_filter.
  split.
  - intros k Hin. apply fold_set_keys in Hin as [[]|Hin].
    apply fold_set_keys. right.
    apply in_map_iff in Hin as [s [<- Hs]].
    apply filter_In in Hs as [Hs Hp].
    apply in_map. apply filter_In. split; [exact Hs|now apply Hpass].
  - intros Hnd [k s] Hin.
    rewrite fold_set_distinct in Hin |- *
      by (cbn [map app]; now apply distinct_ids_filter).
    cbn [app] in Hin |- *.
    apply in_map_iff in Hin as [s0 [E Hs]]. injection E as <- <-.
    apply filter_In in Hs as [Hs Hp].
    apply in_map_iff. exists s0. split; [reflexivity|].
    apply filter_In. split; [exact Hs|now apply Hpass].
Qed.

Lemma filter_seqs_relaxed_parameters_witness :
  In ("a", dna "a" "ACGT-")
     (filter_seqs [dna "a" "ACGT-"; dna "b" "NNN-"; dna "c" "AC"]
                  (1 # 2) 1 0 None).
Proof.
  destruct (filter_seqs_relaxed_parameters
              [dna "a" "ACGT-"; dna "b" "NNN-"; dna "c" "AC"]
              (1 # 2) (1 # 2) (1 # 2) 1 3 0 (Some 5) None)
    as [_ [_ Hentries]];
    try (unfold Qle; cbn; lia); try exact I.
  apply Hentries.
  - repeat constructor; cbn; intuition congruence.
  - vm_compute. now left.
Defined.

(** X19.  The result of [filter_seqs] has each identifier once, every
    entry is a passing sequence under its own identifier, and filtering
    the sequences of the result again with the same parameters gives the
    same result. *)
Theorem filter_seqs_result_is_stable
    (seqs : list Sequence) (g n : Q) (min_length : Z) (max_length : option Z) :
  let result := filter_seqs seqs g n min_length max_length in
  NoDup (map fst result)
  /\ (forall k s, In (k, s) result ->
                  k = seq_id s
                  /\ passes g n min_length max_length s = true)
  /\ filter_seqs (map snd result) g n min_length max_length = result.
Proof.
  intros result.
  assert (Hnd : NoDup (map fst result)).
  { unfold result, filter_seqs. rewrite loop_filter.
    apply fold_set_NoDup. constructor. }
  assert (Hentries : forall k s, In (k, s) result ->
                       k = seq_id s
                       /\ passes g n min_length max_length s = true).
  { intros k s Hin. unfold result, filter_seqs in Hin.
    rewrite loop_filter in Hin.
    apply fold_set_entries in Hin as [[]|[Hk Hs]].
    apply filter_In in Hs as [_ Hp]. now split. }
  split; [exact Hnd|]. split; [exact Hentries|].
  assert (Hids : map seq_id (map snd result) = map fst result).
  { rewrite map_map. apply map_ext_in. intros [k s] Hin.
    cbn [fst snd]. symmetry. now apply Hentries. }
  unfold filter_seqs at 1. rewrite loop_filter.
  rewrite forallb_filter_id.
  - rewrite fold_set_distinct by (cbn [map app]; now rewrite Hids).
    cbn [app]. rewrite map_map.
    rewrite <- (map_id result) at 2. apply map_ext_in.
    intros [k s] Hin. cbn [snd]. f_equal. symmetry. now apply Hentries.
  - apply forallb_forall. intros s Hin.
    apply in_map_iff in Hin as [[k s0] [<- Hin]]. cbn [snd].
    now apply (Hentries k s0).
Qed.

(** ** The registered parameter ranges and the checks of the functions *)

Section Registered.

Local Open Scope Q_scope.

Lemma registered_frequency_unit_interval (x : Q) :
  in_range registered_frequency x = negb (out_of_unit_interval x).
Proof.
  unfold in_range, registered_frequency, out_of_unit_interval.
  cbn [range_start range_end inclusive_start inclusive_end].
  now rewrite negb_orb.
Qed.

Lemma registered_position_from_one (z : Z) :
  in_range registered_position (inject_Z z) = (1 <=? z)%Z.
Proof.
  unfold in_range, registered_position, Np.Qlt_bool.
  cbn [range_start range_end inclusive_start inclusive_end].
  rewrite andb_true_r, negb_involutive.
  unfold Qle_bool; cbn. now rewrite Z.mul_1_r.
Qed.

Lemma registered_min_length_from_zero (z : Z) :
  in_range registered_min_length (inject_Z z) = (0 <=? z)%Z.
Proof.
  unfold in_range, registered_min_length, Np.Qlt_bool.
  cbn [range_start range_end inclusive_start inclusive_end].
  rewrite andb_true_r, negb_involutive.
  unfold Qle_bool; cbn. now rewrite Z.mul_1_r.
Qed.

End Registered.

(** X20.  The range registered for [max_gap_frequency] and
    [min_conservation] is the one [mask] checks: a value is in the
    registered range exactly when [mask] does not reject it.  So with
    both parameters in the registered range [mask] raises, if anything,
    the empty-alignment error or the error that no position remains,
    while a [max_gap_frequency] outside it is rejected by [mask] itself;
    and with the lengths in their registered ranges ([min_length >= 0],
    [max_length >= 1] or unset) and the frequencies in theirs, a sequence
    of length zero passes [filter_seqs] exactly when [min_length] is 0. *)
Theorem registered_ranges_and_checks (g c : Q) (a : TabularMSA) :
  (forall x, in_range registered_frequency x = negb (out_of_unit_interval x))
  /\ (in_range registered_frequency g = true ->
      in_range registered_frequency c = true ->
      forall e,
        snd (mask g c a) = Raise e ->
        e = ValueError empty_alignment_message
        \/ exists str_passed_gap str_passed_conservation,
             e = ValueError (no_positions_message str_passed_gap
                               str_passed_conservation))
  /\ (in_range registered_frequency g = false ->
      mask g c a = (a, Raise (ValueError (max_gap_frequency_message g))))
  /\ (forall n min_length max_length id description,
         in_range registered_min_length (inject_Z min_length) = true ->
         match max_length with
         | Some m => in_range registered_position (inject_Z m) = true
         | None => True
         end ->
         passes g n min_length max_length
           {| seq_chars := []; seq_id := id; seq_description := description |}
         = (min_length =? 0)).
Proof.
  split; [exact registered_frequency_unit_interval|].
  split; [|split].
  - rewrite !registered_frequency_unit_interval, !negb_true_iff.
    intros Hg Hc e. rewrite mask_run. cbn [snd]. unfold mask_outcome.
    rewrite Hg, Hc.
    destruct (shape_position a =? 0)%nat;
      [intros He; left; now injection He as <-|].
    cbv zeta. destruct (shape_position _ =? 0)%nat; [|discriminate].
    intros He. right. injection He as <-. now do 2 eexists.
  - rewrite registered_frequency_unit_interval, negb_false_iff.
    intros Hg. rewrite mask_run. unfold mask_outcome. now rewrite Hg.
  - intros n min_length max_length id description.
    rewrite registered_min_length_from_zero. intros Hmin Hmax.
    apply Z.leb_le in Hmin.
    unfold passes. cbn [seq_chars List.length Z.of_nat].
    assert (Hm : match max_length with
                 | Some m => m <? 0
                 | None => false
                 end = false).
    { destruct max_length as [m|]; [|reflexivity].
      rewrite registered_position_from_one in Hmax.
      apply Z.leb_le in Hmax. apply Z.ltb_ge. lia. }
    rewrite Hm, orb_false_r.
    destruct (Z.ltb_spec 0 min_length) as [Hlt|Hge].
    + symmetry. apply Z.eqb_neq. lia.
    + replace min_length with 0%Z by lia. reflexivity.
Qed.

Lemma registered_ranges_and_checks_witness :
  mask (3 # 2) (4 # 10) aln_basic
  = (aln_basic,
     Raise (ValueError "max_gap_frequency out of range [0.0, 1.0]: 1.500000"))
  /\ passes 1 1 0 (Some 4) (dna "z" EmptyString) = true.
Proof.
  destruct (registered_ranges_and_checks (3 # 2) (4 # 10) aln_basic)
    as [_ [_ [Hout _]]].
  destruct (registered_ranges_and_checks 1 1 aln_basic)
    as [_ [_ [_ Hzero]]].
  split.
  - rewrite Hout; reflexivity.
  - apply (Hzero 1%Q 0 (Some 4) "z" EmptyString); reflexivity.
Defined.


